(** * cstop: a keyboard-driven stopwatch with mutually exclusive timers

    Shallow embedding of [src/cstop/core.py]: the [SimpleTimer] class
    (lines 19-49), the input loop of [main] (lines 162-204), [colorise],
    the print methods of [Monitor] and the final report (lines 103-140
    and 209-213), followed by the properties of the timer state machine
    and of what is displayed.

    Modelling conventions.
    - A keystroke is the Python [str] returned by [getch], one character
      of Rocq's 8-bit [ascii].  When the terminal can supply no further
      byte, [getch] raises (see [getch] below).
    - A [datetime] is an integer count of microseconds ([Z]); a
      [timedelta] is the difference of two of them.  [total_seconds()] is
      taken exactly, and [int(...)] truncates toward zero ([Z.quot]).
      The code adds binary64 floats instead; the two agree whenever the
      marks are whole seconds (see [exact_marks]), as in the scenarios
      below.  Away from whole seconds the theorems only compare two
      readings that the code computes from the same sum of floats, or
      rely on the sign and the growth of that sum; none of them fixes the
      value of such a reading.
    - The clock is simulated: it advances only while [getch] blocks, so
      every [datetime.now()] evaluated while one keystroke is processed
      reads the same instant.
    - [TIMERS] is a finite map from labels to timers.  The only loops over
      it apply one operation to each value, so iteration order plays no
      role.
    - The [Monitor] thread only reads the registry.  Its print methods
      are functions of the registry and of the instant at which they
      read it; its loop, the [Timer] thread class and the terminal
      set-up are not modelled. *)

From Stdlib Require Import Ascii.
From stdpp Require Import base numbers strings list gmap fin_maps sorting pretty.

Module Cstop.

(** ** SimpleTimer (core.py 19-49) *)

Record SimpleTimer : Type := mkSimpleTimer {
  name : string;
  state_switches : list Z
}.

(** [SimpleTimer(name)] *)
Definition new_timer (n : string) : SimpleTimer := mkSimpleTimer n [].

(** [len(self.state_switches) % 2] *)
Definition parity (t : SimpleTimer) : nat := length (state_switches t) mod 2.

Definition append_mark (now : Z) (t : SimpleTimer) : SimpleTimer :=
  mkSimpleTimer (name t) (state_switches t ++ [now]).

Definition resume (now : Z) (t : SimpleTimer) : SimpleTimer :=
  if decide (parity t = 0) then append_mark now t else t.

Definition stop (now : Z) (t : SimpleTimer) : SimpleTimer :=
  if decide (parity t = 1) then append_mark now t else t.

(** [pause = stop] (line 32) *)
Definition pause : Z → SimpleTimer → SimpleTimer := stop.

(** A timer has an open trailing interval when its list of marks has odd
    length. *)
Definition is_open (t : SimpleTimer) : Prop := parity t = 1.

Global Instance is_open_dec t : Decision (is_open t) :=
  decide (parity t = 1).

(** The slice [l[0::2]]; [l[1::2]] is [every_other (tail l)]. *)
Fixpoint every_other {A} (l : list A) : list A :=
  match l with
  | [] => []
  | x :: r => x :: match r with
                   | [] => []
                   | _ :: r' => every_other r'
                   end
  end.

(** [itertools.zip_longest] with the default fill value [None]. *)
Fixpoint zip_longest {A B} (a : list A) (b : list B)
  : list (option A * option B) :=
  match a with
  | [] => (λ y, (None, Some y)) <$> b
  | x :: a' =>
      match b with
      | [] => (Some x, None) :: zip_longest a' []
      | y :: b' => (Some x, Some y) :: zip_longest a' b'
      end
  end.

(** The body of the [for start, end in pairs] loop, in microseconds.
    [end or datetime.now()] picks [now] for the fill value; subtracting
    from a missing [start] would be a [TypeError], rendered as [None]. *)
Fixpoint sum_pairs (now : Z) (pairs : list (option Z * option Z))
    (total : Z) : option Z :=
  match pairs with
  | [] => Some total
  | (start, end_) :: rest =>
      let real_end := default now end_ in
      match start with
      | Some s => sum_pairs now rest (total + (real_end - s))
      | None => None
      end
  end.

Definition usec_per_sec : Z := 1000000.

(** The [seconds] property (lines 40-49). *)
Definition seconds (now : Z) (t : SimpleTimer) : option Z :=
  let pairs := zip_longest (every_other (state_switches t))
                           (every_other (tail (state_switches t))) in
  total ← sum_pairs now pairs 0;
  Some (Z.quot total usec_per_sec).

(** ** Keystrokes *)

(** [str.lower] on the characters the loop can tell apart: upper-case
    ASCII letters are folded, every other character is kept.  (Python
    also folds letters above code point 127, never onto [q], [p] or [*],
    the only values the loop compares with.) *)
Definition lower_ascii (c : ascii) : ascii :=
  let n := nat_of_ascii c in
  if bool_decide (65 ≤ n ≤ 90)%nat then ascii_of_nat (n + 32) else c.

Fixpoint lower (s : string) : string :=
  match s with
  | EmptyString => EmptyString
  | String c r => String (lower_ascii c) (lower r)
  end.

(** ** The input loop of main (core.py 162-204) *)

Record state : Type := mkState {
  TIMERS : gmap string SimpleTimer;
  current_key : option string;      (* GLOBALS['current_key'] *)
  last_active : option string;
  paused : bool
}.

(** Module-level initialisation (lines 14-17) and lines 162-163. *)
Definition initial : state := mkState ∅ None None false.

Inductive exn : Type :=
  | ReadFailure            (* raised inside getch *)
  | KeyError (k : string). (* TIMERS[k] on a missing key *)

Inductive step_result : Type :=
  | Continue (st : state)   (* back to the head of the loop *)
  | Break (st : state)      (* line 168 *)
  | Raise (e : exn).

(** [TIMERS.pop(last_active, None)] *)
Definition pop (k : option string) (m : gmap string SimpleTimer)
  : gmap string SimpleTimer :=
  match k with
  | Some k => delete k m
  | None => m
  end.

(** Lines 190-192. *)
Definition ensure_timer (char : string) (m : gmap string SimpleTimer)
  : gmap string SimpleTimer :=
  match m !! char with
  | Some _ => m
  | None => <[char := new_timer char]> m
  end.

(** Lines 194-198. *)
Definition switch_to (now : Z) (char : string) (m : gmap string SimpleTimer)
  : gmap string SimpleTimer :=
  map_imap (λ k v, Some (if decide (k = char) then resume now v
                         else pause now v)) m.

(** One pass through the loop body (lines 166-198) for the keystroke
    [char], read at instant [now]. *)
Definition on_key (now : Z) (char : string) (st : state) : step_result :=
  if decide (lower char = "q") then
    Break (mkState (TIMERS st) None (last_active st) (paused st))
  else if decide (lower char = "*") then
    Continue (mkState (pop (last_active st) (TIMERS st))
                      (current_key st) None (paused st))
  else if decide (lower char = "p") then
    match last_active st with
    | Some k =>
        if decide (k = "") then Continue st   (* [''] is false *)
        else if paused st then
          match TIMERS st !! k with
          | Some t =>
              Continue (mkState (<[k := resume now t]> (TIMERS st))
                                (Some k) (Some k) false)
          | None => Raise (KeyError k)
          end
        else
          Continue (mkState (pause now <$> TIMERS st) None (Some k) true)
    | None => Continue st                     (* [None] is false *)
    end
  else
    Continue (mkState (switch_to now char (ensure_timer char (TIMERS st)))
                      (Some char) (Some char) (paused st)).

(** What one call of [sys.stdin.read(1)] inside [getch] delivers. *)
Inductive read_result : Type :=
  | Char (ch : string)
  | ReadError.

(** The input source: the reads still to come, each with the time the
    call blocks before it returns.  Once the list is used up the terminal
    can supply nothing more and [getch] raises: [termios.tcgetattr]
    (line 61) fails on what is no longer a terminal, and the read of a
    terminal that has hung up fails with an I/O error. *)
Definition getch (stdin : list (Z * read_result)) (now : Z)
  : read_result * Z * list (Z * read_result) :=
  match stdin with
  | [] => (ReadError, now, [])
  | (dt, r) :: rest => (r, (now + dt)%Z, rest)
  end.

Inductive run_result : Type :=
  | Waiting (now : Z) (st : state)           (* at line 165, out of fuel *)
  | Exited (now : Z) (st : state)            (* the loop was left by break *)
  | Crashed (e : exn) (now : Z) (st : state) (* an exception left main *).

(** The [while True] loop (lines 164-198); [fuel] bounds the number of
    iterations. *)
Fixpoint main_loop (fuel : nat) (stdin : list (Z * read_result))
    (now : Z) (st : state) : run_result :=
  match fuel with
  | O => Waiting now st
  | S fuel' =>
      let '(r, now', stdin') := getch stdin now in
      match r with
      | ReadError => Crashed ReadFailure now' st
      | Char char =>
          match on_key now' char st with
          | Continue st' => main_loop fuel' stdin' now' st'
          | Break st' => Exited now' st'
          | Raise e => Crashed e now' st
          end
      end
  end.

(** Lines 200-201; [join] (lines 203-204) does nothing. *)
Definition stop_all (now : Z) (st : state) : state :=
  mkState (stop now <$> TIMERS st) (current_key st) (last_active st)
          (paused st).

(** [main] from the first [getch] to the end of line 204, started at
    instant [t0]. *)
Definition main (fuel : nat) (stdin : list (Z * read_result)) (t0 : Z)
  : run_result :=
  match main_loop fuel stdin t0 initial with
  | Exited now st => Exited now (stop_all now st)
  | r => r
  end.

(** [elapsed(label)] at instant [now]. *)
Definition elapsed (now : Z) (label : string) (st : state) : option Z :=
  t ← TIMERS st !! label; seconds now t.

Definition sec (n : Z) : Z := (n * usec_per_sec)%Z.

(** A keystroke arriving [n] seconds after the previous one was handled. *)
Definition key_after (n : Z) (k : string) : Z * read_result :=
  (sec n, Char k).

End Cstop.

Import Cstop.

(** ** Properties of registry states *)

(** At most one timer of the registry has an open trailing interval. *)
Definition at_most_one_open (st : state) : Prop :=
  ∀ k1 k2 t1 t2,
    TIMERS st !! k1 = Some t1 → TIMERS st !! k2 = Some t2 →
    is_open t1 → is_open t2 → k1 = k2.

(** A timer with an open trailing interval is the one named by
    [GLOBALS['current_key']]. *)
Definition open_is_current (st : state) : Prop :=
  ∀ k t, TIMERS st !! k = Some t → is_open t →
         current_key st = Some k ∧ name t = k.

Definition exclusive (st : state) : Prop :=
  at_most_one_open st ∧ open_is_current st.

Definition none_open (st : state) : Prop :=
  ∀ k t, TIMERS st !! k = Some t → ¬ is_open t.

(** [GLOBALS['current_key']], when set, is a key of [TIMERS]. *)
Definition current_key_valid (st : state) : Prop :=
  ∀ k, current_key st = Some k → is_Some (TIMERS st !! k).

(** The keystrokes that reach lines 187-198. *)
Definition selects (k : string) : Prop :=
  k ≠ "q" ∧ k ≠ "Q" ∧ k ≠ "p" ∧ k ≠ "P" ∧ k ≠ "*".

(** The invariant of the loop head (line 165). *)
Record loop_inv (st : state) : Prop := LoopInv {
  inv_open_last : ∀ k t,
    TIMERS st !! k = Some t → is_open t → last_active st = Some k;
  inv_open_current : ∀ k t,
    TIMERS st !! k = Some t → is_open t → current_key st = Some k;
  inv_last_present : ∀ k,
    last_active st = Some k → is_Some (TIMERS st !! k);
  inv_name : ∀ k t, TIMERS st !! k = Some t → name t = k
}.

(** What is known of the state in which the loop is left by [break]. *)
Definition left_by_break (st : state) : Prop :=
  ∃ st0, loop_inv st0 ∧
         st = mkState (TIMERS st0) None (last_active st0) (paused st0).

(** ** Moving a run in time *)

(** The same timer, state and results with every instant [d] later. *)
Definition shift_timer (d : Z) (t : SimpleTimer) : SimpleTimer :=
  mkSimpleTimer (name t) ((λ x, x + d)%Z <$> state_switches t).

Definition shift_state (d : Z) (st : state) : state :=
  mkState (shift_timer d <$> TIMERS st) (current_key st) (last_active st)
          (paused st).

Definition shift_step (d : Z) (r : step_result) : step_result :=
  match r with
  | Continue st => Continue (shift_state d st)
  | Break st => Break (shift_state d st)
  | Raise e => Raise e
  end.

Definition shift_run (d : Z) (r : run_result) : run_result :=
  match r with
  | Waiting now st => Waiting (now + d) (shift_state d st)
  | Exited now st => Exited (now + d) (shift_state d st)
  | Crashed e now st => Crashed e (now + d) (shift_state d st)
  end.

(** ** Accounting in microseconds *)

(** The total that the loop of [seconds] accumulates before [int(...)]
    truncates it, read directly off the list of marks: the lengths of the
    closed intervals, plus [now - start] for a trailing open one. *)
Fixpoint intervals_total (now : Z) (marks : list Z) : Z :=
  match marks with
  | [] => 0
  | s :: r =>
      match r with
      | [] => now - s
      | e :: r' => (e - s) + intervals_total now r'
      end
  end.

(** The marks [l] are in order and lie between [lo] and [hi]. *)
Fixpoint marks_within (lo hi : Z) (l : list Z) : Prop :=
  match l with
  | [] => (lo ≤ hi)%Z
  | x :: r => (lo ≤ x)%Z ∧ marks_within x hi r
  end.

(** The time booked on all the timers of a registry at instant [now],
    in microseconds. *)
Definition booked (now : Z) (m : gmap string SimpleTimer) : Z :=
  map_fold (λ _ t acc, (acc + intervals_total now (state_switches t))%Z)
           0%Z m.

(** What the clock guarantees about a registry at instant [now] in a
    session started at [t0]. *)
Definition booked_inv (t0 now : Z) (st : state) : Prop :=
  (∀ k t, TIMERS st !! k = Some t → marks_within t0 now (state_switches t)) ∧
  (booked now (TIMERS st) ≤ now - t0)%Z.

(** The clock never runs backwards while [getch] blocks. *)
Definition forward (stdin : list (Z * read_result)) : Prop :=
  Forall (λ e, (0 ≤ e.1)%Z) stdin.

(** ** The display (core.py 103-140 and 209-213)

    [Monitor.print_multiple], [Monitor.print_single] and the final report
    of [main] are embedded as functions of the registry they read and of
    the instant of the reading; what they print is returned as a string.
    From the Python library they use: [timedelta(seconds=n)] and its
    [str], the [%s], [%8s] formats, [sorted] and [str.join]. *)

(** A [timedelta] made from whole seconds, normalised as the library keeps
    it: any number of days and [0 <= seconds < 86400] (its microseconds
    are zero). *)
Record timedelta : Type := mkTimedelta {
  td_days : Z;
  td_seconds : Z
}.

Definition max_days : Z := 999999999.

(** [timedelta(seconds=n)] for an [int]: [divmod(n, 86400)], and an
    [OverflowError] ([None]) when the days exceed [max_days] in
    magnitude. *)
Definition timedelta_of_seconds (n : Z) : option timedelta :=
  let d := (n `div` 86400)%Z in
  if decide (- max_days ≤ d ≤ max_days)%Z
  then Some (mkTimedelta d (n `mod` 86400)%Z)
  else None.

(** The formats ["%d"] and ["%02d"]. *)
Definition fmt_d (n : Z) : string := pretty n.

Definition fmt_02d (n : Z) : string :=
  let s := pretty n in
  if decide (String.length s < 2) then "0" +:+ s else s.

(** [str(value)] of a [timedelta] without microseconds:
    [H:MM:SS], after ["D day, "] or ["D days, "] when the days are not
    zero. *)
Definition timedelta_str (v : timedelta) : string :=
  let mm := (td_seconds v `div` 60)%Z in
  let ss := (td_seconds v `mod` 60)%Z in
  let hh := (mm `div` 60)%Z in
  let mm := (mm `mod` 60)%Z in
  let s := fmt_d hh +:+ ":" +:+ fmt_02d mm +:+ ":" +:+ fmt_02d ss in
  if decide (td_days v = 0%Z) then s
  else fmt_d (td_days v) +:+ " day"
       +:+ (if decide (Z.abs (td_days v) = 1%Z) then "" else "s")
       +:+ ", " +:+ s.

Fixpoint spaces (n : nat) : string :=
  match n with
  | O => ""
  | S n' => String " " (spaces n')
  end.

(** The format ["%8s"] for [w = 8]: right-justified, never cut. *)
Definition rjust (w : nat) (s : string) : string :=
  spaces (w - String.length s) +:+ s.

Definition ESC : string := String "027" "".
Definition CR : string := String "013" "".
Definition LF : string := String "010" "".

(** The format ['%s: %8s'] of line 107. *)
Definition plain_item (key : string) (value : timedelta) : string :=
  key +:+ ": " +:+ rjust 8 (timedelta_str value).

(** [colorise] (lines 103-108); [current] is [GLOBALS['current_key']]. *)
Definition colorise (current : option string) (key : string)
    (value : timedelta) : string :=
  if decide (current = Some key)
  then ESC +:+ "[1;32m" +:+ plain_item key value +:+ ESC +:+ "[0;0m"
  else plain_item key value.

(** [timedelta(seconds=timer.seconds)] *)
Definition reading (now : Z) (timer : SimpleTimer) : option timedelta :=
  s ← seconds now timer; timedelta_of_seconds s.

(** What one call of a print method does. *)
Inductive tick_result : Type :=
  | Printed (text : string)
  | Skipped                 (* returned without printing *)
  | Failed.                 (* an exception left the method *)

(** The order of the pairs [(name, timedelta)] under [sorted]: by name,
    then by value. *)
Definition timedelta_le (v w : timedelta) : Prop :=
  (td_days v < td_days w)%Z ∨
  (td_days v = td_days w ∧ td_seconds v ≤ td_seconds w)%Z.

Definition row_le (a b : string * timedelta) : Prop :=
  String.ltb a.1 b.1 = true ∨ (a.1 = b.1 ∧ timedelta_le a.2 b.2).

Global Instance timedelta_le_dec v w : Decision (timedelta_le v w).
Proof. unfold timedelta_le. apply _. Defined.

Global Instance row_le_dec a b : Decision (row_le a b).
Proof. unfold row_le. apply _. Defined.

(** [Monitor.print_multiple] (lines 127-132). *)
Definition print_multiple (now : Z) (st : state) : tick_result :=
  match mapM (λ timer, v ← reading now timer; Some (name timer, v))
             (map_to_list (TIMERS st)).*2 with
  | None => Failed
  | Some data =>
      let items := (λ row, colorise (current_key st) row.1 row.2)
                     <$> merge_sort row_le data in
      match items with
      | [] => Skipped
      | _ => Printed (CR +:+ " " +:+ String.concat " | " items)
      end
  end.

(** [Monitor.print_single] (lines 134-140).  A [SimpleTimer] is always
    true, so [if not timer] only catches the missing key. *)
Definition print_single (now : Z) (st : state) : tick_result :=
  match current_key st ≫= (λ k, TIMERS st !! k) with
  | None => Skipped
  | Some timer =>
      match reading now timer with
      | None => Failed
      | Some v =>
          Printed (CR +:+ " "
                   +:+ colorise (current_key st)
                                (default "" (current_key st)) v)
      end
  end.

(** The loop of lines 211-213 over [sorted(TIMERS.items())]: the lines
    printed, and whether the loop ran to its end.  The keys of a
    dictionary are distinct, so [sorted] orders the items by key and never
    compares two timers. *)
Fixpoint report_rows (now : Z) (current : option string)
    (items : list (string * SimpleTimer)) : list string * bool :=
  match items with
  | [] => ([], true)
  | (key, timer) :: rest =>
      match reading now timer with
      | None => ([], false)
      | Some v =>
          let '(lines, ok) := report_rows now current rest in
          ((CR +:+ " " +:+ colorise current key v +:+ LF) :: lines, ok)
      end
  end.

Definition item_le (a b : string * SimpleTimer) : Prop :=
  String.leb a.1 b.1 = true.

Global Instance item_le_dec a b : Decision (item_le a b).
Proof. unfold item_le. apply _. Defined.

(** Lines 209-213 of [main]; [single] is [args.single]. *)
Definition report (single : bool) (now : Z) (st : state)
  : list string * bool :=
  if single then
    let '(lines, ok) :=
      report_rows now (current_key st)
                  (merge_sort item_le (map_to_list (TIMERS st))) in
    ((LF +:+ LF +:+ "--- Report ------------" +:+ LF) :: lines, ok)
  else ([], true).

(** The current key is the remembered label, unless [*] has just removed
    its timer. *)
Definition current_key_inv (st : state) : Prop :=
  ∀ k, current_key st = Some k →
       last_active st = Some k ∨
       (last_active st = None ∧ TIMERS st !! k = None).

(** A highlighted key that names a timer names a running one. *)
Definition current_runs (st : state) : Prop :=
  ∀ k t, current_key st = Some k → TIMERS st !! k = Some t → is_open t.

(** The longest session, in microseconds, whose readings still fit a
    [timedelta]. *)
Definition session_limit : Z := (86400 * (max_days + 1) * usec_per_sec)%Z.


(** ** Readings that the floats of the code give exactly *)

(** An instant that is a whole number of seconds. *)
Definition whole_second (x : Z) : Prop := (usec_per_sec | x)%Z.

(** A span, in microseconds, within which every whole number of seconds
    is a binary64 float. *)
Definition float_exact_span : Z := (2 ^ 53 * usec_per_sec)%Z.

(** The marks for which [seconds], read at [hi], computes with floats as
    it would with integers: they are in order between [lo] and [hi], they
    and [hi] are whole seconds, and [hi] is less than [float_exact_span]
    after [lo].  Every interval is then a whole number of seconds, every
    [total_seconds()] is that number, and every partial sum is a
    non-negative integer below [2 ^ 53], so that no addition rounds. *)
Definition exact_marks (lo hi : Z) (l : list Z) : Prop :=
  marks_within lo hi l ∧ Forall whole_second l ∧ whole_second hi ∧
  (hi - lo < float_exact_span)%Z.

(** ** Timers: parity of the list of marks *)

Section Timer.

Implicit Types (t : SimpleTimer) (now : Z).

Lemma parity_lt_2 t : parity t = 0 ∨ parity t = 1.
Proof.
  unfold parity. pose proof (Nat.mod_upper_bound (length (state_switches t)) 2).
  lia.
Qed.

Lemma parity_append_mark now t :
  parity (append_mark now t) = (if decide (parity t = 0) then 1 else 0).
Proof.
  unfold parity, append_mark. cbn [state_switches].
  rewrite length_app. cbn [length].
  generalize (length (state_switches t)). intros n.
  rewrite (Nat.Div0.add_mod n 1 2).
  assert (n `mod` 2 = 0 ∨ n `mod` 2 = 1) as [-> | ->]
    by (pose proof (Nat.mod_upper_bound n 2); lia); done.
Qed.

Lemma resume_is_open now t : is_open (resume now t).
Proof.
  unfold is_open, resume. case_decide as H.
  - rewrite parity_append_mark. by rewrite decide_True.
  - destruct (parity_lt_2 t); [done | assumption].
Qed.

Lemma stop_not_open now t : ¬ is_open (stop now t).
Proof.
  unfold is_open, stop. case_decide as H; [|done].
  rewrite parity_append_mark. case_decide; lia.
Qed.

Lemma pause_not_open now t : ¬ is_open (pause now t).
Proof. apply stop_not_open. Qed.

Lemma resume_of_open now t : is_open t → resume now t = t.
Proof. unfold is_open, resume. intros H. case_decide; [lia | done]. Qed.

Lemma stop_of_closed now t : ¬ is_open t → stop now t = t.
Proof. unfold is_open, stop. intros H. by case_decide. Qed.

Lemma name_resume now t : name (resume now t) = name t.
Proof. unfold resume. by case_decide. Qed.

Lemma name_stop now t : name (stop now t) = name t.
Proof. unfold stop. by case_decide. Qed.

End Timer.

(** ** The seconds property never fails *)

Section Seconds.

Lemma every_other_cons {A} (x : A) (l : list A) :
  every_other (x :: l) = x :: every_other (tail l).
Proof. by destruct l. Qed.

(** The slice of the starts is never shorter than the slice of the ends,
    so [zip_longest] never fills in a start and the subtraction of line 47
    is always defined. *)
Lemma sum_pairs_slices now (l : list Z) : ∀ total,
  is_Some (sum_pairs now (zip_longest (every_other l) (every_other (tail l)))
                     total) ∧
  is_Some (sum_pairs now (zip_longest (every_other (tail l))
                                      (every_other (tail (tail l)))) total).
Proof.
  induction l as [|x l IH]; intros total; [by split; eexists|].
  split; [|apply IH].
  destruct l as [|y l]; [by eexists|].
  specialize (IH (total + (y - x))%Z) as [_ IH].
  cbn [tail] in IH |- *. rewrite (every_other_cons y l).
  exact IH.
Qed.

Lemma seconds_total now t : is_Some (seconds now t).
Proof.
  unfold seconds.
  destruct (sum_pairs_slices now (state_switches t) 0) as [[total ->] _].
  by eexists.
Qed.

End Seconds.

(** ** Keystroke classification *)

Section Keys.

Lemma lower_single s d :
  lower s = String d "" ↔ ∃ c, s = String c "" ∧ lower_ascii c = d.
Proof.
  split.
  - destruct s as [|c [|c' r]]; simpl; intros H; try discriminate.
    injection H as H. eauto.
  - intros (c & -> & <-). reflexivity.
Qed.

Lemma lower_ascii_q c : lower_ascii c = "q"%char ↔ c = "q"%char ∨ c = "Q"%char.
Proof.
  destruct c as [[] [] [] [] [] [] [] []]; vm_compute;
    (split; [intros H; first [discriminate H | by left | by right]
            | intros [H|H]; first [discriminate H | reflexivity]]).
Qed.

Lemma lower_ascii_p c : lower_ascii c = "p"%char ↔ c = "p"%char ∨ c = "P"%char.
Proof.
  destruct c as [[] [] [] [] [] [] [] []]; vm_compute;
    (split; [intros H; first [discriminate H | by left | by right]
            | intros [H|H]; first [discriminate H | reflexivity]]).
Qed.

Lemma lower_ascii_star c : lower_ascii c = "*"%char ↔ c = "*"%char.
Proof.
  destruct c as [[] [] [] [] [] [] [] []]; vm_compute;
    (split; intros H; first [discriminate H | reflexivity]).
Qed.

Lemma lower_is_q s : lower s = "q" ↔ s = "q" ∨ s = "Q".
Proof.
  rewrite lower_single. split.
  - intros (c & -> & [-> | ->]%lower_ascii_q); auto.
  - intros [-> | ->]; eexists; (split; [reflexivity|]); by vm_compute.
Qed.

Lemma lower_is_p s : lower s = "p" ↔ s = "p" ∨ s = "P".
Proof.
  rewrite lower_single. split.
  - intros (c & -> & [-> | ->]%lower_ascii_p); auto.
  - intros [-> | ->]; eexists; (split; [reflexivity|]); by vm_compute.
Qed.

Lemma lower_is_star s : lower s = "*" ↔ s = "*".
Proof.
  rewrite lower_single. split.
  - intros (c & -> & ->%lower_ascii_star); auto.
  - intros ->; eexists; (split; [reflexivity|]); by vm_compute.
Qed.

(** A keystroke other than [q], [Q], [p], [P] and [*] takes the last
    branch of the loop body. *)
Lemma on_key_selects now k st :
  selects k →
  on_key now k st =
    Continue (mkState (switch_to now k (ensure_timer k (TIMERS st)))
                      (Some k) (Some k) (paused st)).
Proof.
  intros (Hq & HQ & Hp & HP & Hs). unfold on_key.
  rewrite decide_False by (rewrite lower_is_q; tauto).
  rewrite decide_False by (rewrite lower_is_star; tauto).
  rewrite decide_False by (rewrite lower_is_p; tauto).
  reflexivity.
Qed.

End Keys.

(** ** Registry operations *)

Section Registry.

Implicit Types (m : gmap string SimpleTimer) (st : state) (now : Z).

Lemma lookup_switch_to now char m k :
  switch_to now char m !! k =
    (λ v, if decide (k = char) then resume now v else pause now v) <$> m !! k.
Proof. unfold switch_to. rewrite map_lookup_imap. by destruct (m !! k). Qed.

Lemma lookup_ensure_timer_eq char m : is_Some (ensure_timer char m !! char).
Proof.
  unfold ensure_timer. destruct (m !! char) eqn:E.
  - rewrite E. eauto.
  - rewrite lookup_insert_eq. eauto.
Qed.

Lemma lookup_ensure_timer_ne char m k :
  k ≠ char → ensure_timer char m !! k = m !! k.
Proof.
  intros Hk. unfold ensure_timer. destruct (m !! char); [done|].
  by rewrite lookup_insert_ne.
Qed.

Lemma lookup_ensure_timer_Some char m k t :
  ensure_timer char m !! k = Some t →
  m !! k = Some t ∨ (k = char ∧ t = new_timer char ∧ m !! char = None).
Proof.
  unfold ensure_timer. destruct (m !! char) eqn:E; [by left|].
  destruct (decide (k = char)) as [->|Hk].
  - rewrite lookup_insert_eq. intros [= <-]. by right.
  - rewrite lookup_insert_ne by done. by left.
Qed.

Lemma lookup_pop_Some o m k t :
  pop o m !! k = Some t → m !! k = Some t ∧ o ≠ Some k.
Proof.
  destruct o as [k'|]; simpl; [|by intros ->].
  destruct (decide (k' = k)) as [->|Hk].
  - by rewrite lookup_delete_eq.
  - rewrite lookup_delete_ne by done. intros ->. split; [done | congruence].
Qed.

Lemma loop_inv_initial : loop_inv initial.
Proof. split; simpl; intros *; by rewrite ?lookup_empty. Qed.

(** Every pass through the loop body that returns to the loop head keeps
    the invariant. *)
Lemma on_key_loop_inv now char st st' :
  loop_inv st → on_key now char st = Continue st' → loop_inv st'.
Proof.
  intros Hinv. pose proof Hinv as [Hlast Hcur Hpres Hname]. unfold on_key.
  case_decide as Hq; [done|].
  case_decide as Hstar.
  { intros [= <-]. split; simpl.
    - intros k t [Hk Hne]%lookup_pop_Some Ho. by destruct Hne; eauto.
    - intros k t [Hk Hne]%lookup_pop_Some Ho. by destruct Hne; eauto.
    - done.
    - intros k t [Hk _]%lookup_pop_Some. eauto. }
  case_decide as Hp.
  { destruct (last_active st) as [la|] eqn:Hla; [|by intros [= <-]].
    case_decide as Hempty; [by intros [= <-]|].
    destruct (paused st).
    - destruct (TIMERS st !! la) as [tl|] eqn:Htl; [|done].
      intros [= <-]. split; simpl.
      + intros k t. destruct (decide (la = k)) as [->|Hk]; [done|].
        rewrite lookup_insert_ne by done. eauto.
      + intros k t. destruct (decide (la = k)) as [->|Hk]; [done|].
        rewrite lookup_insert_ne by done. intros Hk' Ho.
        specialize (Hlast _ _ Hk' Ho). congruence.
      + intros k [= <-]. rewrite lookup_insert_eq. eauto.
      + intros k t. destruct (decide (la = k)) as [->|Hk].
        * rewrite lookup_insert_eq. intros [= <-].
          rewrite name_resume. eauto.
        * rewrite lookup_insert_ne by done. eauto.
    - intros [= <-]. split; simpl.
      + intros k t. rewrite lookup_fmap.
        destruct (TIMERS st !! k); [|done]. intros [= <-] Ho.
        by apply pause_not_open in Ho.
      + intros k t. rewrite lookup_fmap.
        destruct (TIMERS st !! k); [|done]. intros [= <-] Ho.
        by apply pause_not_open in Ho.
      + intros k [= <-]. rewrite lookup_fmap.
        destruct (Hpres la eq_refl) as [t ->]. eauto.
      + intros k t. rewrite lookup_fmap.
        destruct (TIMERS st !! k) eqn:E; [|done]. intros [= <-].
        unfold pause. rewrite name_stop. eauto. }
  intros [= <-].
  assert (∀ k t, switch_to now char (ensure_timer char (TIMERS st)) !! k
                 = Some t → is_open t → k = char) as Hopen.
  { intros k t. rewrite lookup_switch_to.
    destruct (ensure_timer char (TIMERS st) !! k); [|done].
    intros [= <-]. case_decide; [done|]. intros Ho.
    by apply pause_not_open in Ho. }
  split; simpl.
  - intros k t Hk Ho. by rewrite (Hopen _ _ Hk Ho).
  - intros k t Hk Ho. by rewrite (Hopen _ _ Hk Ho).
  - intros k [= <-]. rewrite lookup_switch_to.
    destruct (lookup_ensure_timer_eq char (TIMERS st)) as [t ->]. eauto.
  - intros k t. rewrite lookup_switch_to.
    destruct (ensure_timer char (TIMERS st) !! k) as [t0|] eqn:E; [|done].
    intros [= <-].
    assert (name t0 = k) as <-.
    { apply lookup_ensure_timer_Some in E as [E|(-> & -> & _)]; eauto. }
    case_decide; [apply name_resume | apply name_stop].
Qed.

(** Leaving the loop (lines 166-168) clears [GLOBALS['current_key']] and
    touches nothing else. *)
Lemma on_key_Break now char st st' :
  on_key now char st = Break st' →
  (char = "q" ∨ char = "Q") ∧
  st' = mkState (TIMERS st) None (last_active st) (paused st).
Proof.
  unfold on_key. case_decide as Hq.
  - intros [= <-]. by apply lower_is_q in Hq.
  - repeat (case_decide || case_match); done.
Qed.

(** The only exception the loop body can raise is the failed lookup of
    line 177. *)
Lemma on_key_Raise now char st e :
  on_key now char st = Raise e →
  ∃ k, e = KeyError k ∧ last_active st = Some k ∧ TIMERS st !! k = None.
Proof.
  unfold on_key. repeat (case_decide || case_match); try done.
  intros [= <-]. eauto.
Qed.

Lemma on_key_no_Raise now char st e :
  loop_inv st → on_key now char st ≠ Raise e.
Proof.
  intros Hinv (k & _ & Hla & Hk)%on_key_Raise.
  destruct (inv_last_present st Hinv k Hla) as [t Ht]. congruence.
Qed.

End Registry.

(** ** The loop as a whole *)

Section Loop.

Implicit Types (st : state) (now : Z) (stdin : list (Z * read_result)).

Lemma main_loop_inv fuel : ∀ stdin now st,
  loop_inv st →
  match main_loop fuel stdin now st with
  | Waiting _ st' => loop_inv st'
  | Exited _ st' => left_by_break st'
  | Crashed e _ st' => e = ReadFailure ∧ loop_inv st'
  end.
Proof.
  induction fuel as [|fuel IH]; intros stdin now st Hinv; [done|].
  cbn [main_loop]. destruct (getch stdin now) as [[r now'] stdin'].
  destruct r as [char|]; [|done].
  destruct (on_key now' char st) as [st'|st'|e] eqn:Hstep.
  - apply IH. eauto using on_key_loop_inv.
  - apply on_key_Break in Hstep as [_ ->]. by exists st.
  - by apply on_key_no_Raise in Hstep.
Qed.

(** Running the loop on a prefix of the input and then on the rest is
    running it on the whole input. *)
Lemma main_loop_app ks : ∀ rest fuel t0 st now st',
  main_loop (length ks) ks t0 st = Waiting now st' →
  main_loop (length ks + fuel) (ks ++ rest) t0 st = main_loop fuel rest now st'.
Proof.
  induction ks as [|[dt r] ks IH]; intros rest fuel t0 st now st'.
  - by intros [= <- <-].
  - cbn [length main_loop getch app Nat.add].
    destruct r as [char|]; [|done].
    destruct (on_key (t0 + dt) char st); [|done..]. apply IH.
Qed.

Lemma loop_inv_exclusive st : loop_inv st → exclusive st.
Proof.
  intros [Hlast Hcur _ Hname]. split.
  - intros k1 k2 t1 t2 H1 H2 Ho1 Ho2.
    pose proof (Hlast _ _ H1 Ho1). pose proof (Hlast _ _ H2 Ho2).
    congruence.
  - intros k t Hk Ho. eauto.
Qed.

Lemma left_by_break_at_most_one_open st :
  left_by_break st → at_most_one_open st.
Proof.
  intros (st0 & [Hlast _ _ _] & ->) k1 k2 t1 t2; simpl.
  intros H1 H2 Ho1 Ho2.
  specialize (Hlast _ _ H1 Ho1) as E1. specialize (Hlast _ _ H2 Ho2) as E2.
  congruence.
Qed.

Lemma stop_all_none_open now st : none_open (stop_all now st).
Proof.
  intros k t. unfold stop_all; simpl. rewrite lookup_fmap.
  destruct (TIMERS st !! k); [|done]. intros [= <-]. apply stop_not_open.
Qed.

End Loop.

(** ** Exclusivity *)

Section Exclusivity.

(** C1, as stated, fails when the keystroke is [q]: line 167 clears
    [GLOBALS['current_key']] before the loop is left, while the interval
    of the selected timer is still open (it is closed by line 201).
    After the keys [a], [q] the loop has been left with timer [a] open and
    no current key. *)
Lemma C1_exclusivity_counterexample :
  ∃ now st,
    main_loop 2 [key_after 0 "a"; key_after 1 "q"] 0 initial = Exited now st ∧
    TIMERS st !! "a" = Some (mkSimpleTimer "a" [0%Z]) ∧
    is_open (mkSimpleTimer "a" [0%Z]) ∧
    current_key st = None ∧
    ¬ exclusive st.
Proof.
  eexists _, _. split; [vm_compute; reflexivity|].
  assert (is_open (mkSimpleTimer "a" [0%Z])) as Ho by reflexivity.
  split; [by vm_compute|]. split; [done|]. split; [done|].
  intros [_ Hcur].
  destruct (Hcur "a" (mkSimpleTimer "a" [0%Z])) as [Hc _];
    [by vm_compute | done | discriminate Hc].
Qed.

(** C1 (amended): every state in which the loop waits for a keystroke
    has at most one timer with an open trailing interval, and that timer
    is the one labelled [GLOBALS['current_key']].  When the loop is left
    on [q]/[Q], at most one timer is open, [GLOBALS['current_key']] has
    been cleared, and no timer is open once lines 200-201 have run. *)
Theorem C1_exclusivity_amended fuel stdin t0 now st :
  (main_loop fuel stdin t0 initial = Waiting now st → exclusive st) ∧
  (main_loop fuel stdin t0 initial = Exited now st →
     at_most_one_open st ∧ current_key st = None ∧
     none_open (stop_all now st)).
Proof.
  pose proof (main_loop_inv fuel stdin t0 initial loop_inv_initial) as H.
  split; intros E; rewrite E in H.
  - by apply loop_inv_exclusive.
  - split; [by apply left_by_break_at_most_one_open|].
    split; [by destruct H as (st0 & _ & ->) | apply stop_all_none_open].
Qed.

Lemma C1_exclusivity_amended_witness :
  ∃ now st,
    main_loop 3 [key_after 0 "a"; key_after 1 "b"; key_after 1 "p"] 0 initial
      = Waiting now st ∧
    exclusive st.
Proof.
  eexists _, _. split; [vm_compute; reflexivity|].
  eapply (C1_exclusivity_amended 3
            [key_after 0 "a"; key_after 1 "b"; key_after 1 "p"] 0).
  vm_compute; reflexivity.
Defined.

End Exclusivity.

(** ** Selection and the pause flag *)

Section PauseFlag.

(** C2: the code does not do what the claim says.  A selection leaves
    [paused] as it was (see [on_key_selects]), so after [a], [p], [b] the
    flag is still set although timer [b] runs; the next [p] takes the
    resume branch: nothing is closed, [paused] becomes false and
    [GLOBALS['current_key']] stays [b]. *)
Theorem C2_pause_after_selection_while_paused :
  ∃ now st st' t,
    main_loop 3 [key_after 0 "a"; key_after 1 "p"; key_after 1 "b"] 0 initial
      = Waiting now st ∧
    current_key st = Some "b" ∧ paused st = true ∧
    on_key (now + sec 1) "p" st = Continue st' ∧
    paused st' = false ∧ current_key st' = Some "b" ∧
    TIMERS st' !! "b" = Some t ∧ is_open t.
Proof.
  eexists _, _, _, _. split; [vm_compute; reflexivity|].
  split; [reflexivity|]. split; [reflexivity|].
  split; [vm_compute; reflexivity|].
  split; [reflexivity|]. split; [reflexivity|].
  split; [vm_compute; reflexivity | reflexivity].
Qed.

End PauseFlag.

(** ** Validity of the current key *)

Section CurrentKey.

(** C3: the code does not do what the claim says.  The [*] branch
    (lines 169-173) removes the timer and forgets [last_active] but leaves
    [GLOBALS['current_key']] as it was: after [a], [*] the current key is
    still [a] while the registry is empty. *)
Theorem C3_current_key_after_star :
  ∃ now st,
    main_loop 2 [key_after 0 "a"; key_after 1 "*"] 0 initial = Waiting now st ∧
    current_key st = Some "a" ∧ TIMERS st = ∅ ∧ ¬ current_key_valid st.
Proof.
  eexists _, _. split; [vm_compute; reflexivity|].
  split; [reflexivity|]. split; [by vm_compute|].
  intros H. destruct (H "a" eq_refl) as [t Ht]. by vm_compute in Ht.
Qed.

End CurrentKey.

(** ** Removing a timer *)

Section Star.

(** C4, as stated, fails after a pause: [p] clears
    [GLOBALS['current_key']] but [last_active] still remembers the paused
    timer, and line 170 removes the timer that [last_active] names.
    After [a], two seconds, [p], the current key is unset and timer [a]
    holds the interval [0, 2 s]; a following [*] deletes it. *)
Lemma C4_star_after_pause_counterexample :
  ∃ now st st',
    main_loop 2 [key_after 0 "a"; key_after 2 "p"] 0 initial = Waiting now st ∧
    current_key st = None ∧
    TIMERS st !! "a" = Some (mkSimpleTimer "a" [0%Z; sec 2]) ∧
    on_key (now + sec 1) "*" st = Continue st' ∧
    TIMERS st' !! "a" = None ∧
    TIMERS st' ≠ TIMERS st.
Proof.
  eexists _, _, _. split; [vm_compute; reflexivity|].
  split; [reflexivity|]. split; [by vm_compute|].
  split; [vm_compute; reflexivity|]. split; [by vm_compute|].
  intros H. apply (f_equal (λ m, m !! "a")) in H. by vm_compute in H.
Qed.

(** C4 (amended): [*] pressed while [last_active] is unset leaves the
    registry as it is.  A [p]/[P] keystroke that pauses all timers clears
    [GLOBALS['current_key']] and keeps [last_active], and a [*] that
    follows it deletes exactly the remembered timer. *)
Theorem C4_star_amended now now' st pk :
  pk = "p" ∨ pk = "P" →
  (last_active st = None →
     ∃ st', on_key now "*" st = Continue st' ∧ TIMERS st' = TIMERS st) ∧
  (∀ k, last_active st = Some k → k ≠ "" → paused st = false →
     ∃ st1 st2,
       on_key now pk st = Continue st1 ∧
       TIMERS st1 = pause now <$> TIMERS st ∧
       current_key st1 = None ∧ last_active st1 = Some k ∧
       on_key now' "*" st1 = Continue st2 ∧
       TIMERS st2 = delete k (TIMERS st1)).
Proof.
  intros Hpk. split.
  - intros Hla. eexists. split; [reflexivity|]. simpl. by rewrite Hla.
  - intros k Hla Hk Hpaused.
    assert (lower pk = "p") as Hlow by (by destruct Hpk as [-> | ->]).
    eexists _, _. split.
    { unfold on_key. rewrite Hlow, Hla, Hpaused.
      rewrite decide_False by done. rewrite decide_False by done.
      rewrite decide_True by done. rewrite decide_False by done.
      reflexivity. }
    repeat (split; [reflexivity|]). reflexivity.
Qed.

Lemma C4_star_amended_witness :
  let st := mkState {[ "a" := mkSimpleTimer "a" [0%Z] ]}
                    (Some "a") (Some "a") false in
  ∃ st1 st2,
    on_key (sec 2) "p" st = Continue st1 ∧
    TIMERS st1 = pause (sec 2) <$> TIMERS st ∧
    current_key st1 = None ∧ last_active st1 = Some "a" ∧
    on_key (sec 3) "*" st1 = Continue st2 ∧
    TIMERS st2 = delete "a" (TIMERS st1).
Proof.
  intros st.
  apply (C4_star_amended (sec 2) (sec 3) st "p" (or_introl eq_refl)).
  - reflexivity.
  - discriminate.
  - reflexivity.
Defined.

(** C10: [*] removes the entry named by [last_active] and nothing else:
    every other label keeps its timer, hence its list of marks and its
    elapsed time at every instant. *)
Theorem C10_star_frame now st :
  ∃ st', on_key now "*" st = Continue st' ∧
    (∀ k, last_active st = Some k → TIMERS st' !! k = None) ∧
    (∀ k, last_active st ≠ Some k →
       TIMERS st' !! k = TIMERS st !! k ∧
       ∀ t, elapsed t k st' = elapsed t k st).
Proof.
  eexists. split; [reflexivity|]. simpl. split.
  - intros k ->. simpl. apply lookup_delete_eq.
  - intros k Hk.
    assert (pop (last_active st) (TIMERS st) !! k = TIMERS st !! k) as E.
    { destruct (last_active st) as [k'|]; simpl; [|done].
      apply lookup_delete_ne. congruence. }
    split; [done|]. intros t. unfold elapsed; simpl. by rewrite E.
Qed.

Lemma C10_star_frame_witness :
  let st := mkState {[ "a" := mkSimpleTimer "a" [0%Z; 5%Z];
                       "b" := mkSimpleTimer "b" [5%Z] ]}
                    (Some "b") (Some "b") false in
  ∃ st', on_key 9 "*" st = Continue st' ∧
    TIMERS st' !! "b" = None ∧
    TIMERS st' !! "a" = TIMERS st !! "a".
Proof.
  intros st. destruct (C10_star_frame 9 st) as (st' & E & Hgone & Hkeep).
  exists st'. split; [exact E|]. split.
  - apply Hgone. reflexivity.
  - apply Hkeep. discriminate.
Defined.

End Star.

(** ** Failing reads *)

Section Reads.



End Reads.

(** ** Timer operations *)

Section Resume.

(** C8: on a stopped timer (an even number of marks) a second [resume]
    changes nothing: the two calls together append the single mark of the
    first one, and the timer ends with one more mark and an open trailing
    interval. *)
Theorem C8_resume_idempotent t now1 now2 :
  parity t = 0 →
  resume now2 (resume now1 t) = resume now1 t ∧
  state_switches (resume now2 (resume now1 t)) = state_switches t ++ [now1] ∧
  length (state_switches (resume now2 (resume now1 t)))
    = S (length (state_switches t)) ∧
  is_open (resume now2 (resume now1 t)).
Proof.
  intros Heven.
  assert (resume now2 (resume now1 t) = resume now1 t) as ->
    by apply resume_of_open, resume_is_open.
  split; [done|].
  assert (state_switches (resume now1 t) = state_switches t ++ [now1]) as E
    by (unfold resume; by rewrite decide_True).
  rewrite E. split; [done|]. split; [|apply resume_is_open].
  rewrite length_app; simpl. lia.
Qed.

Lemma C8_resume_idempotent_witness :
  resume 9 (resume 7 (mkSimpleTimer "a" [1%Z; 4%Z]))
    = mkSimpleTimer "a" [1%Z; 4%Z; 7%Z].
Proof.
  destruct (C8_resume_idempotent (mkSimpleTimer "a" [1%Z; 4%Z]) 7 9)
    as (E & _); [reflexivity|].
  rewrite E. reflexivity.
Defined.

End Resume.

(** ** The lookup of the resume branch *)

Section ResumeLookup.

(** C9: whenever the loop waits for a keystroke, a non-empty
    [last_active] is a key of [TIMERS]; hence [TIMERS[last_active]]
    (line 177) finds its timer whatever the next keystroke is, and no run
    of the loop ends in a [KeyError]. *)
Theorem C9_resume_lookup_never_fails fuel stdin t0 :
  (∀ now st k, main_loop fuel stdin t0 initial = Waiting now st →
     last_active st = Some k → k ≠ "" →
     is_Some (TIMERS st !! k) ∧
     ∀ now' char e, on_key now' char st ≠ Raise e) ∧
  (∀ k now st, main_loop fuel stdin t0 initial ≠ Crashed (KeyError k) now st).
Proof.
  pose proof (main_loop_inv fuel stdin t0 initial loop_inv_initial) as H.
  split.
  - intros now st k E Hla _. rewrite E in H. split.
    + by apply (inv_last_present st H).
    + intros now' char e. by apply on_key_no_Raise.
  - intros k now st E. rewrite E in H. by destruct H.
Qed.

Lemma C9_resume_lookup_never_fails_witness :
  ∃ now st,
    main_loop 2 [key_after 0 "a"; key_after 1 "p"] 0 initial = Waiting now st ∧
    last_active st = Some "a" ∧ is_Some (TIMERS st !! "a").
Proof.
  eexists _, _. split; [vm_compute; reflexivity|]. split; [reflexivity|].
  eapply (proj1 (C9_resume_lookup_never_fails 2
                   [key_after 0 "a"; key_after 1 "p"] 0)).
  - vm_compute; reflexivity.
  - reflexivity.
  - discriminate.
Defined.

End ResumeLookup.

(** ** Time-translation invariance *)

Section Shift.

Implicit Types (t : SimpleTimer) (st : state) (now d : Z).

Lemma parity_shift_timer d t : parity (shift_timer d t) = parity t.
Proof. unfold parity, shift_timer; simpl. by rewrite length_fmap. Qed.

Lemma append_mark_shift now d t :
  append_mark (now + d) (shift_timer d t) = shift_timer d (append_mark now t).
Proof. unfold append_mark, shift_timer; simpl. by rewrite fmap_app. Qed.

Lemma resume_shift now d t :
  resume (now + d) (shift_timer d t) = shift_timer d (resume now t).
Proof.
  unfold resume. rewrite parity_shift_timer.
  case_decide; [apply append_mark_shift | done].
Qed.

Lemma stop_shift now d t :
  stop (now + d) (shift_timer d t) = shift_timer d (stop now t).
Proof.
  unfold stop. rewrite parity_shift_timer.
  case_decide; [apply append_mark_shift | done].
Qed.

Lemma ensure_timer_shift d char (m : gmap string SimpleTimer) :
  ensure_timer char (shift_timer d <$> m) = shift_timer d <$> ensure_timer char m.
Proof.
  unfold ensure_timer. rewrite lookup_fmap.
  destruct (m !! char); simpl; [done|]. by rewrite fmap_insert.
Qed.

Lemma switch_to_shift now d char (m : gmap string SimpleTimer) :
  switch_to (now + d) char (shift_timer d <$> m)
    = shift_timer d <$> switch_to now char m.
Proof.
  apply map_eq. intros k.
  rewrite lookup_fmap, !lookup_switch_to, lookup_fmap.
  destruct (m !! k); simpl; [|done]. f_equal.
  case_decide; [apply resume_shift | apply stop_shift].
Qed.

Lemma stop_fmap_shift now d (m : gmap string SimpleTimer) :
  stop (now + d) <$> (shift_timer d <$> m) = shift_timer d <$> (stop now <$> m).
Proof.
  rewrite <- !map_fmap_compose. apply map_fmap_ext.
  intros k t _. apply stop_shift.
Qed.

Lemma on_key_shift now d char st :
  on_key (now + d) char (shift_state d st) = shift_step d (on_key now char st).
Proof.
  unfold on_key. case_decide; [done|]. case_decide.
  { simpl. unfold shift_state; simpl. do 2 f_equal.
    destruct (last_active st); simpl; [|done]. by rewrite fmap_delete. }
  case_decide.
  { simpl. destruct (last_active st) as [k|]; [|done].
    case_decide; [done|]. destruct (paused st).
    - rewrite lookup_fmap. destruct (TIMERS st !! k); simpl; [|done].
      unfold shift_state; simpl. by rewrite fmap_insert, resume_shift.
    - simpl. unfold shift_state, pause; simpl. by rewrite stop_fmap_shift. }
  simpl. unfold shift_state; simpl.
  by rewrite ensure_timer_shift, switch_to_shift.
Qed.

Lemma main_loop_shift d fuel : ∀ stdin now st,
  main_loop fuel stdin (now + d) (shift_state d st)
    = shift_run d (main_loop fuel stdin now st).
Proof.
  induction fuel as [|fuel IH]; intros stdin now st; [done|].
  cbn [main_loop].
  assert (getch stdin (now + d)
          = (let '(r, now', stdin') := getch stdin now in (r, now' + d, stdin'))%Z)
    as ->.
  { destruct stdin as [|[dt r] rest]; simpl; [done|]. do 2 f_equal. lia. }
  destruct (getch stdin now) as [[r now'] stdin'].
  destruct r as [char|]; [|done].
  rewrite on_key_shift. destruct (on_key now' char st); simpl; auto.
Qed.

Lemma shift_state_initial d : shift_state d initial = initial.
Proof. unfold shift_state, initial; simpl. by rewrite fmap_empty. Qed.

Lemma main_shift d fuel stdin (t0 : Z) :
  main fuel stdin (t0 + d) = shift_run d (main fuel stdin t0).
Proof.
  unfold main. rewrite <- (shift_state_initial d) at 1.
  rewrite main_loop_shift.
  destruct (main_loop fuel stdin t0 initial); simpl; try done.
  unfold stop_all, shift_state; simpl. by rewrite stop_fmap_shift.
Qed.

Lemma every_other_fmap {A B} (f : A → B) (l : list A) :
  every_other (f <$> l) = f <$> every_other l.
Proof.
  assert (every_other (f <$> l) = f <$> every_other l ∧
          every_other (f <$> tail l) = f <$> every_other (tail l)) as [H _];
    [|done].
  induction l as [|x l [IH1 IH2]]; [done|]. split; [|done].
  destruct l as [|y l]; simpl; [done|]. f_equal. apply IH2.
Qed.

Lemma tail_fmap {A B} (f : A → B) (l : list A) : tail (f <$> l) = f <$> tail l.
Proof. by destruct l. Qed.

Lemma zip_longest_fmap {A B} (f : A → B) (a : list A) : ∀ b : list A,
  zip_longest (f <$> a) (f <$> b)
    = prod_map (fmap (M:=option) f) (fmap (M:=option) f) <$> zip_longest a b.
Proof.
  induction a as [|x a IH]; intros b; simpl.
  - rewrite <- !list_fmap_compose. done.
  - destruct b as [|y b]; simpl; f_equal.
    + apply (IH []).
    + apply IH.
Qed.

Lemma sum_pairs_shift now d pairs : ∀ total,
  sum_pairs (now + d)
            (prod_map (fmap (M:=option) (λ x, x + d)%Z)
                      (fmap (M:=option) (λ x, x + d)%Z) <$> pairs)
            total
    = sum_pairs now pairs total.
Proof.
  induction pairs as [|[start end_] pairs IH]; intros total; [done|].
  simpl. destruct start as [s|]; simpl; [|done]. rewrite IH. f_equal.
  destruct end_; simpl; lia.
Qed.

Lemma seconds_shift now d t :
  seconds (now + d) (shift_timer d t) = seconds now t.
Proof.
  unfold seconds, shift_timer; simpl.
  by rewrite tail_fmap, !every_other_fmap, zip_longest_fmap, sum_pairs_shift.
Qed.

Lemma elapsed_shift now d label st :
  elapsed (now + d) label (shift_state d st) = elapsed now label st.
Proof.
  unfold elapsed, shift_state; simpl. rewrite lookup_fmap.
  destruct (TIMERS st !! label); simpl; [apply seconds_shift | done].
Qed.

End Shift.

(** ** Scenarios under a simulated clock *)

Section Scenarios.

Lemma main_Exited_none_open fuel stdin t0 now st :
  main fuel stdin t0 = Exited now st → none_open st.
Proof.
  unfold main. destruct (main_loop fuel stdin t0 initial); try done.
  intros [= <- <-]. apply stop_all_none_open.
Qed.

(** C6: select [m], 2 s later [p] (pause), 5 s later [p] (resume); read
    1 s after that, the elapsed time of [m] is 3 s, whatever the instant
    the session starts at: the 5 s spent paused do not count. *)
Theorem C6_pause_resume_round_trip (t0 : Z) :
  ∃ st,
    main_loop 3 [key_after 0 "m"; key_after 2 "p"; key_after 5 "p"] t0 initial
      = Waiting (t0 + sec 7) st ∧
    elapsed (t0 + sec 7 + sec 1) "m" st = Some 3%Z.
Proof.
  pose proof (main_loop_shift t0 3
    [key_after 0 "m"; key_after 2 "p"; key_after 5 "p"] 0 initial) as H.
  rewrite shift_state_initial, Z.add_0_l in H.
  set (r := main_loop 3 _ 0 initial) in H. vm_compute in r. subst r.
  cbn [shift_run] in H. eexists. split.
  - rewrite H. f_equal. unfold sec, usec_per_sec. lia.
  - replace (t0 + sec 7 + sec 1)%Z with (sec 8 + t0)%Z
      by (unfold sec, usec_per_sec; lia).
    rewrite elapsed_shift. by vm_compute.
Qed.

(** C7: the keys [a], [b], [a], [q], one second apart.  The loop is left
    by [break] on the fourth key, lines 200-201 close the open interval,
    and from then on the elapsed time of [a] is 2 s and that of [b] is
    1 s, whatever the instant the session starts at. *)
Theorem C7_end_to_end (t0 : Z) (extra : nat) :
  ∃ st,
    main (4 + extra)
         [key_after 0 "a"; key_after 1 "b"; key_after 1 "a"; key_after 1 "q"]
         t0
      = Exited (t0 + sec 3) st ∧
    none_open st ∧
    ∀ t, elapsed t "a" st = Some 2%Z ∧ elapsed t "b" st = Some 1%Z.
Proof.
  pose proof (main_shift t0 (4 + extra)
    [key_after 0 "a"; key_after 1 "b"; key_after 1 "a"; key_after 1 "q"] 0)
    as H.
  rewrite Z.add_0_l in H.
  set (r := main _ _ 0) in H. vm_compute in r. subst r.
  cbn [shift_run] in H.
  replace (3000000 + t0)%Z with (t0 + sec 3)%Z in H
    by (unfold sec, usec_per_sec; lia).
  eexists. split; [exact H|]. split; [by eapply main_Exited_none_open|].
  intros t. replace t with (t - t0 + t0)%Z by lia.
  rewrite !elapsed_shift. split; by vm_compute.
Qed.

End Scenarios.

(** ** The elapsed time of one timer *)

Section Elapsed.

Implicit Types (t : SimpleTimer) (now : Z) (l : list Z).

Lemma list_ind_pairs {A} (P : list A → Prop) :
  P [] → (∀ x, P [x]) → (∀ x y (r : list A), P r → P (x :: y :: r)) →
  ∀ r : list A, P r.
Proof.
  intros Hnil Hone Hstep l.
  assert (P l ∧ ∀ x, P (x :: l)) as [H _]; [|done].
  induction l as [|y l [IH1 IH2]]; [by split|].
  split; [apply IH2 | intros x; by apply Hstep].
Qed.

Lemma mod2_SS n : S (S n) `mod` 2 = n `mod` 2.
Proof.
  replace (S (S n)) with (n + 1 * 2) by lia. apply Nat.Div0.mod_add.
Qed.

Lemma sum_pairs_intervals now l : ∀ total,
  sum_pairs now (zip_longest (every_other l) (every_other (tail l))) total
    = Some (total + intervals_total now l)%Z.
Proof.
  induction l as [|x|x y l IH] using list_ind_pairs; intros total.
  - simpl. f_equal. lia.
  - reflexivity.
  - cbn [tail]. rewrite (every_other_cons y l). cbn. rewrite IH.
    f_equal. lia.
Qed.

Lemma seconds_intervals now t :
  seconds now t
    = Some (intervals_total now (state_switches t) `quot` usec_per_sec)%Z.
Proof. unfold seconds. by rewrite sum_pairs_intervals. Qed.

Lemma intervals_total_cons2 now s e l :
  intervals_total now (s :: e :: l) = ((e - s) + intervals_total now l)%Z.
Proof. reflexivity. Qed.

(** With an even number of marks the total does not depend on the
    instant of the reading. *)
Lemma intervals_total_closed now now' l :
  length l `mod` 2 = 0 → intervals_total now l = intervals_total now' l.
Proof.
  induction l as [|x|x y l IH] using list_ind_pairs; [done|done|].
  cbn [length]. rewrite mod2_SS. intros H. cbn. by rewrite IH.
Qed.

Lemma intervals_total_open_le now now' l :
  (now ≤ now')%Z → (intervals_total now l ≤ intervals_total now' l)%Z.
Proof.
  intros Hle. induction l as [|x|x y l IH] using list_ind_pairs; cbn; lia.
Qed.

(** Appending a start mark to a closed list adds the open interval. *)
Lemma intervals_total_start now x l :
  length l `mod` 2 = 0 →
  intervals_total now (l ++ [x]) = (intervals_total now l + (now - x))%Z.
Proof.
  induction l as [|y|y z l IH] using list_ind_pairs; [intros; cbn; lia|done|].
  cbn [length]. rewrite mod2_SS. intros H.
  change ((y :: z :: l) ++ [x]) with (y :: z :: (l ++ [x])).
  rewrite !intervals_total_cons2, IH by done. lia.
Qed.

(** Appending an end mark to an open list fixes the total at the value it
    had at that instant. *)
Lemma intervals_total_end now x l :
  length l `mod` 2 = 1 →
  intervals_total now (l ++ [x]) = intervals_total x l.
Proof.
  induction l as [|y|y z l IH] using list_ind_pairs;
    [done | intros; cbn; lia |].
  cbn [length]. rewrite mod2_SS. intros H.
  change ((y :: z :: l) ++ [x]) with (y :: z :: (l ++ [x])).
  by rewrite !intervals_total_cons2, IH.
Qed.

Lemma intervals_total_stop now later t :
  intervals_total later (state_switches (stop now t))
    = intervals_total now (state_switches t).
Proof.
  unfold stop. case_decide as H.
  - by apply intervals_total_end.
  - apply intervals_total_closed. destruct (parity_lt_2 t); done.
Qed.

Lemma intervals_total_resume now t :
  intervals_total now (state_switches (resume now t))
    = intervals_total now (state_switches t).
Proof.
  unfold resume. case_decide as H; [|done]. simpl.
  rewrite intervals_total_start by done. lia.
Qed.

Lemma marks_within_le l : ∀ lo hi, marks_within lo hi l → (lo ≤ hi)%Z.
Proof.
  induction l as [|x l IH]; intros lo hi; [done|].
  intros [H1 H2%IH]. lia.
Qed.

Lemma marks_within_weaken l : ∀ lo hi hi',
  (hi ≤ hi')%Z → marks_within lo hi l → marks_within lo hi' l.
Proof.
  induction l as [|x l IH]; intros lo hi hi' Hle; simpl; [lia|].
  intros [H1 H2]. eauto.
Qed.

Lemma marks_within_snoc l : ∀ lo hi,
  marks_within lo hi l → marks_within lo hi (l ++ [hi]).
Proof.
  induction l as [|x l IH]; intros lo hi; simpl; [lia|].
  intros [H1 H2]. eauto.
Qed.

Lemma intervals_total_bounds l : ∀ lo hi,
  marks_within lo hi l → (0 ≤ intervals_total hi l ≤ hi - lo)%Z.
Proof.
  induction l as [|x|x y l IH] using list_ind_pairs; intros lo hi.
  - simpl. lia.
  - simpl. lia.
  - intros (H1 & H2 & H3). rewrite intervals_total_cons2.
    specialize (IH _ _ H3). lia.
Qed.

End Elapsed.

(** ** Readings of a single timer *)

Section Readings.

Implicit Types (t : SimpleTimer) (now later : Z).

Lemma intervals_total_whole now (l : list Z) :
  Forall whole_second l → whole_second now →
  (usec_per_sec | intervals_total now l)%Z.
Proof.
  intros Hl Hnow. induction l as [|x|x y l IH] using list_ind_pairs.
  - apply Z.divide_0_r.
  - apply Forall_cons in Hl as [Hx _]. simpl. by apply Z.divide_sub_r.
  - apply Forall_cons in Hl as [Hx [Hy Hl]%Forall_cons].
    rewrite intervals_total_cons2.
    apply Z.divide_add_r; [by apply Z.divide_sub_r | by apply IH].
Qed.

(** X1: the [seconds] property never fails: the slice of the starts is
    never the shorter one, so line 47 never subtracts from a fill value.
    When the marks and the instant of the reading are whole seconds in
    order (the case in which the floats of the code are exact), the
    reading is the sum of the closed intervals, plus the time since the
    last start when the trailing interval is open, with nothing lost to
    truncation. *)
Theorem X1_seconds_never_fails now t :
  is_Some (seconds now t) ∧
  ∀ lo, exact_marks lo now (state_switches t) →
    ∃ s, seconds now t = Some s ∧ (0 ≤ s)%Z ∧
         (s * usec_per_sec)%Z = intervals_total now (state_switches t).
Proof.
  split; [apply seconds_total|].
  intros lo (Hmarks & Hwhole & Hnow & _).
  rewrite seconds_intervals. eexists. split; [done|].
  destruct (intervals_total_whole now _ Hwhole Hnow) as [z Hz].
  pose proof (intervals_total_bounds _ _ _ Hmarks) as [H0 _].
  rewrite Hz, Z.quot_mul by done. unfold usec_per_sec in *. lia.
Qed.

Lemma X1_seconds_never_fails_witness :
  ∃ s, seconds 9000000 (mkSimpleTimer "a" [1000000; 4000000; 7000000]%Z)
         = Some s ∧ (0 ≤ s)%Z ∧
       (s * usec_per_sec)%Z
         = intervals_total 9000000 [1000000; 4000000; 7000000]%Z.
Proof.
  apply (proj2 (X1_seconds_never_fails 9000000
                  (mkSimpleTimer "a" [1000000; 4000000; 7000000]%Z)) 0%Z).
  split; [simpl; lia|]. split; [|split; [by exists 9%Z | by vm_compute]].
  apply Forall_cons. split; [by exists 1%Z|].
  apply Forall_cons. split; [by exists 4%Z|].
  apply Forall_cons. split; [by exists 7%Z | by apply Forall_nil].
Defined.

(** X2: [stop] freezes the reading: whatever the state of the timer,
    after [stop] at instant [now] the [seconds] property gives, at every
    instant, the value it had at [now] before the call. *)
Theorem X2_stop_freezes_reading now later t :
  seconds later (stop now t) = seconds now t.
Proof. by rewrite !seconds_intervals, intervals_total_stop. Qed.

(** X3: the reading of a timer never goes down as time goes on, whether
    the timer runs or not. *)
Theorem X3_seconds_monotone now later t :
  (now ≤ later)%Z →
  ∃ s1 s2, seconds now t = Some s1 ∧ seconds later t = Some s2 ∧ (s1 ≤ s2)%Z.
Proof.
  intros Hle. rewrite !seconds_intervals. eexists _, _.
  split; [done|]. split; [done|].
  apply Z.quot_le_mono; [done|]. by apply intervals_total_open_le.
Qed.

Lemma X3_seconds_monotone_witness :
  ∃ s1 s2,
    seconds 1500000 (mkSimpleTimer "a" [0; 400000; 900000]%Z) = Some s1 ∧
    seconds 3000000 (mkSimpleTimer "a" [0; 400000; 900000]%Z) = Some s2 ∧
    (s1 ≤ s2)%Z.
Proof.
  apply (X3_seconds_monotone 1500000 3000000
           (mkSimpleTimer "a" [0; 400000; 900000]%Z)).
  lia.
Defined.

(** X4: [resume] does not change the reading at the instant of the
    call: a restarted timer goes on from the total it had. *)
Theorem X4_resume_keeps_reading now t :
  seconds now (resume now t) = seconds now t.
Proof. by rewrite !seconds_intervals, intervals_total_resume. Qed.

(** X5: on a stopped timer, [resume] at [now1] followed by [stop] at
    [now2] appends exactly these two marks.  When all the marks are whole
    seconds in order (the case in which the floats of the code are
    exact), the reading grows by exactly the seconds from [now1] to
    [now2]. *)
Theorem X5_resume_stop_cycle now1 now2 later t :
  parity t = 0 →
  state_switches (stop now2 (resume now1 t))
    = state_switches t ++ [now1; now2] ∧
  ∀ lo, exact_marks lo now2 (state_switches t ++ [now1; now2]) →
    ∃ s s', seconds later t = Some s ∧
            seconds later (stop now2 (resume now1 t)) = Some s' ∧
            ((s' - s) * usec_per_sec)%Z = (now2 - now1)%Z.
Proof.
  intros Heven.
  assert (resume now1 t = append_mark now1 t) as Hr
    by (unfold resume; by rewrite decide_True).
  assert (stop now2 (resume now1 t) = append_mark now2 (append_mark now1 t))
    as Hs.
  { unfold stop. rewrite decide_True; [by rewrite Hr|].
    apply resume_is_open. }
  split; [rewrite Hs; simpl; by rewrite <- app_assoc|].
  intros lo (_ & Hwhole & Hnow2 & _).
  apply Forall_app in Hwhole as [Ht [Hnow1 _]%Forall_cons].
  rewrite !seconds_intervals, intervals_total_stop, Hr. simpl.
  rewrite intervals_total_start by done.
  rewrite (intervals_total_closed later now2) by done.
  destruct (intervals_total_whole now2 _ Ht Hnow2) as [z Hz].
  destruct (Z.divide_sub_r _ _ _ Hnow2 Hnow1) as [w Hw].
  eexists _, _. split; [done|]. split; [done|].
  rewrite Hz, Hw, <- Z.mul_add_distr_r, !Z.quot_mul by done. lia.
Qed.

End Readings.

Section Cycles.

Lemma X5_resume_stop_cycle_witness :
  ∃ s s',
    seconds 20000000 (mkSimpleTimer "a" [1000000; 4000000]%Z) = Some s ∧
    seconds 20000000
      (stop 9000000 (resume 7000000 (mkSimpleTimer "a" [1000000; 4000000]%Z)))
      = Some s' ∧
    ((s' - s) * usec_per_sec)%Z = (9000000 - 7000000)%Z.
Proof.
  apply (proj2 (X5_resume_stop_cycle 7000000 9000000 20000000
                  (mkSimpleTimer "a" [1000000; 4000000]%Z) eq_refl) 0%Z).
  split; [simpl; lia|]. split; [|split; [by exists 9%Z | by vm_compute]].
  apply Forall_cons. split; [by exists 1%Z|].
  apply Forall_cons. split; [by exists 4%Z|].
  apply Forall_cons. split; [by exists 7%Z|].
  apply Forall_cons. split; [by exists 9%Z | by apply Forall_nil].
Defined.

(** X6: the marks of a timer alternate between starts and ends: [stop]
    always leaves the timer stopped and [resume] always leaves it
    running, and repeating either call changes nothing. *)
Theorem X6_marks_alternate now1 now2 t :
  ¬ is_open (stop now1 t) ∧ stop now2 (stop now1 t) = stop now1 t ∧
  is_open (resume now1 t) ∧ resume now2 (resume now1 t) = resume now1 t.
Proof.
  split; [apply stop_not_open|].
  split; [apply stop_of_closed, stop_not_open|].
  split; [apply resume_is_open|].
  apply resume_of_open, resume_is_open.
Qed.

End Cycles.

(** ** Leaving the loop *)

Section Quit.

Implicit Types (st : state) (now : Z) (stdin : list (Z * read_result)).

Lemma on_key_quit now q st :
  q = "q" ∨ q = "Q" →
  on_key now q st
    = Break (mkState (TIMERS st) None (last_active st) (paused st)).
Proof. intros Hq. unfold on_key. by rewrite decide_True by by destruct Hq as [-> | ->]. Qed.

(** X7: [q] and [Q] always end the session: whatever was typed before,
    the loop is left at that key without reading further input,
    [GLOBALS['current_key']] is cleared, lines 200-201 stop every timer at
    that instant, and no timer is created or removed. *)
Theorem X7_quit_key_exits pre dt q rest extra t0 now st :
  q = "q" ∨ q = "Q" →
  main_loop (length pre) pre t0 initial = Waiting now st →
  main (length pre + S extra) (pre ++ (dt, Char q) :: rest) t0
    = Exited (now + dt)
        (mkState (stop (now + dt) <$> TIMERS st) None (last_active st)
                 (paused st)).
Proof.
  intros Hq E. unfold main.
  rewrite (main_loop_app pre _ (S extra) _ _ _ _ E).
  cbn [main_loop getch]. by rewrite on_key_quit.
Qed.

Lemma X7_quit_key_exits_witness :
  ∃ st,
    main 5 [key_after 0 "a"; key_after 3 "Q"; key_after 1 "b"] 0
      = Exited (sec 3) st ∧
    TIMERS st !! "a" = Some (mkSimpleTimer "a" [0; sec 3]%Z) ∧
    TIMERS st !! "b" = None.
Proof.
  eexists. split; [|split].
  - apply (X7_quit_key_exits [key_after 0 "a"] (sec 3) "Q"
             [key_after 1 "b"] 3 0 0).
    + by right.
    + vm_compute; reflexivity.
  - by vm_compute.
  - by vm_compute.
Defined.

(** X8: the loop is left by [break] only on a [q] or [Q] that was really
    read; every other way out of it is an exception. *)
Theorem X8_exit_only_by_quit fuel : ∀ stdin t0 st0 now st,
  main_loop fuel stdin t0 st0 = Exited now st →
  ∃ i dt q, (i < fuel)%nat ∧ stdin !! i = Some (dt, Char q) ∧
            (q = "q" ∨ q = "Q").
Proof.
  induction fuel as [|fuel IH]; intros stdin t0 st0 now st; [done|].
  cbn [main_loop]. destruct stdin as [|[dt r] rest]; cbn [getch]; [done|].
  - destruct r as [char|]; [|done].
    destruct (on_key (t0 + dt) char st0) as [st'|st'|e] eqn:Hstep; [| |done].
    + intros E. destruct (IH _ _ _ _ _ E) as (i & dt' & q & Hlt & Hi & Hq).
      exists (S i), dt', q. split; [lia|done].
    + intros _. apply on_key_Break in Hstep as [Hq _].
      exists 0%nat, dt, char. split; [lia|done].
Qed.

Lemma X8_exit_only_by_quit_witness :
  ∃ i dt q, (i < 3)%nat ∧
    [key_after 0 "a"; key_after 3 "Q"] !! i = Some (dt, Char q) ∧
    (q = "q" ∨ q = "Q").
Proof.
  eapply (X8_exit_only_by_quit 3 [key_after 0 "a"; key_after 3 "Q"] 0 initial).
  vm_compute. reflexivity.
Defined.

End Quit.

(** ** Selecting, pausing and resetting *)

Section Keystrokes.

Implicit Types (st : state) (now : Z) (m : gmap string SimpleTimer).

Lemma lookup_select_eq now char m :
  switch_to now char (ensure_timer char m) !! char
    = Some (resume now (default (new_timer char) (m !! char))).
Proof.
  rewrite lookup_switch_to. unfold ensure_timer.
  destruct (m !! char) as [t|] eqn:E.
  - rewrite E. simpl. by rewrite decide_True.
  - rewrite lookup_insert_eq. simpl. by rewrite decide_True.
Qed.

Lemma lookup_select_ne now char m k :
  k ≠ char →
  switch_to now char (ensure_timer char m) !! k = pause now <$> m !! k.
Proof.
  intros Hk. rewrite lookup_switch_to, lookup_ensure_timer_ne by done.
  destruct (m !! k); simpl; [|done]. by rewrite decide_False.
Qed.

(** X9: a key other than [q], [Q], [p], [P], [*] selects its timer: the
    timer is created if the label is new, it is the only one left
    running, every other timer is stopped at that instant, and no other
    label enters or leaves the registry.  Labels are compared as they
    are, so [T] and [t] are two timers. *)
Theorem X9_selection_switches now char st :
  selects char →
  ∃ st', on_key now char st = Continue st' ∧
    current_key st' = Some char ∧ last_active st' = Some char ∧
    TIMERS st' !! char
      = Some (resume now (default (new_timer char) (TIMERS st !! char))) ∧
    (∀ k, k ≠ char → TIMERS st' !! k = pause now <$> TIMERS st !! k) ∧
    (∀ k t, TIMERS st' !! k = Some t → is_open t → k = char).
Proof.
  intros Hsel. eexists. split; [by apply on_key_selects|]. simpl.
  split; [done|]. split; [done|]. split; [apply lookup_select_eq|].
  split; [intros k Hk; by apply lookup_select_ne|].
  intros k t Hk Ho. destruct (decide (k = char)) as [|Hne]; [done|].
  rewrite lookup_select_ne in Hk by done.
  destruct (TIMERS st !! k); [|done]. injection Hk as <-.
  by apply pause_not_open in Ho.
Qed.

Lemma X9_selection_switches_witness :
  let st := mkState {[ "T" := mkSimpleTimer "T" [0%Z] ]}
                    (Some "T") (Some "T") false in
  ∃ st', on_key 5 "t" st = Continue st' ∧
    TIMERS st' !! "t" = Some (mkSimpleTimer "t" [5%Z]) ∧
    TIMERS st' !! "T" = Some (mkSimpleTimer "T" [0%Z; 5%Z]).
Proof.
  intros st.
  destruct (X9_selection_switches 5 "t" st) as (st' & E & _ & _ & Ht & HT & _).
  - by repeat split.
  - exists st'. split; [exact E|]. split.
    + rewrite Ht. reflexivity.
    + rewrite HT by done. reflexivity.
Defined.

(** X10: reset.  After a timer has been selected, [*] removes it, and
    selecting the same label again starts a new timer whose only mark is
    the instant of that selection, so that it reads zero: the time
    recorded before is gone. *)
Theorem X10_reset_starts_afresh now1 now2 now3 x st :
  selects x →
  ∃ st1 st2 st3,
    on_key now1 x st = Continue st1 ∧
    on_key now2 "*" st1 = Continue st2 ∧
    TIMERS st2 !! x = None ∧ last_active st2 = None ∧
    on_key now3 x st2 = Continue st3 ∧
    TIMERS st3 !! x = Some (mkSimpleTimer x [now3]) ∧
    elapsed now3 x st3 = Some 0%Z.
Proof.
  intros Hsel. eexists _, _, _.
  split; [by apply on_key_selects|].
  split; [reflexivity|]. cbn [TIMERS last_active pop].
  assert (delete x (switch_to now1 x (ensure_timer x (TIMERS st))) !! x = None)
    as Hgone by apply lookup_delete_eq.
  split; [done|]. split; [done|].
  split; [by apply on_key_selects|]. cbn [TIMERS].
  assert (switch_to now3 x
            (ensure_timer x
               (delete x (switch_to now1 x (ensure_timer x (TIMERS st))))) !! x
          = Some (mkSimpleTimer x [now3])) as Hnew.
  { rewrite lookup_select_eq, Hgone. reflexivity. }
  split; [done|]. unfold elapsed. cbn [TIMERS]. rewrite Hnew. simpl.
  rewrite seconds_intervals. simpl. by rewrite Z.sub_diag.
Qed.

Lemma X10_reset_starts_afresh_witness :
  ∃ st3,
    main_loop 3 [key_after 0 "x"; key_after 4 "*"; key_after 1 "x"] 0 initial
      = Waiting (sec 5) st3 ∧
    TIMERS st3 !! "x" = Some (mkSimpleTimer "x" [sec 5]).
Proof.
  destruct (X10_reset_starts_afresh 0 (sec 4) (sec 5) "x" initial)
    as (st1 & st2 & st3 & E1 & E2 & _ & _ & E3 & Hx & _).
  - by repeat split.
  - exists st3. split; [|exact Hx].
    cbn [main_loop getch key_after].
    change (0 + sec 0)%Z with 0%Z. rewrite E1.
    change (0 + sec 4)%Z with (sec 4). rewrite E2.
    change (sec 4 + sec 1)%Z with (sec 5). by rewrite E3.
Defined.

End Keystrokes.

Section Pausing.

Implicit Types (st : state) (now : Z) (m : gmap string SimpleTimer).

Lemma on_key_pause_key now pk st :
  pk = "p" ∨ pk = "P" → on_key now pk st = on_key now "p" st.
Proof.
  intros Hpk. assert (lower pk = "p") as Hlow by by destruct Hpk as [-> | ->].
  unfold on_key. by rewrite Hlow.
Qed.

(** X11: pause and resume.  With a timer selected and the session not
    paused, [p] (or [P]) stops every timer and clears the highlight; the
    next [p] restarts the remembered timer only and restores the
    highlight.  The restarted timer has its old marks, the end mark of
    the pause and the start mark of the resumption, and at the
    resumption it reads what it read at the pause: the span spent paused
    lies between two intervals and counts for nothing. *)
Theorem X11_pause_resume_round_trip now1 now2 pk1 pk2 k t st :
  pk1 = "p" ∨ pk1 = "P" → pk2 = "p" ∨ pk2 = "P" →
  last_active st = Some k → k ≠ "" → paused st = false →
  TIMERS st !! k = Some t →
  ∃ st1 st2 t2,
    on_key now1 pk1 st = Continue st1 ∧
    current_key st1 = None ∧ paused st1 = true ∧
    (∀ k' t', TIMERS st1 !! k' = Some t' → ¬ is_open t') ∧
    on_key now2 pk2 st1 = Continue st2 ∧
    current_key st2 = Some k ∧ paused st2 = false ∧
    (∀ k' t', TIMERS st2 !! k' = Some t' → is_open t' → k' = k) ∧
    TIMERS st2 !! k = Some t2 ∧
    state_switches t2 = state_switches (pause now1 t) ++ [now2] ∧
    elapsed now2 k st2 = elapsed now1 k st.
Proof.
  intros Hpk1 Hpk2 Hla Hk Hpaused Ht.
  assert (on_key now1 pk1 st
          = Continue (mkState (pause now1 <$> TIMERS st) None (Some k) true))
    as E1.
  { rewrite on_key_pause_key by done. unfold on_key. simpl.
    rewrite Hla, Hpaused. by rewrite decide_False. }
  assert ((pause now1 <$> TIMERS st) !! k = Some (pause now1 t)) as Hk1
    by by rewrite lookup_fmap, Ht.
  assert (parity (pause now1 t) = 0) as Hclosed.
  { destruct (parity_lt_2 (pause now1 t)) as [H|H]; [done|].
    by apply pause_not_open in H. }
  eexists _, _, _. split; [exact E1|]. cbn [current_key paused TIMERS].
  split; [done|]. split; [done|]. split.
  { intros k' t'. rewrite lookup_fmap. destruct (TIMERS st !! k'); [|done].
    intros [= <-]. apply pause_not_open. }
  split.
  { rewrite on_key_pause_key by done. unfold on_key. simpl.
    rewrite decide_False by done. by rewrite Hk1. }
  cbn [current_key paused TIMERS]. split; [done|]. split; [done|]. split.
  { intros k' t'. destruct (decide (k = k')) as [|Hne]; [done|].
    rewrite lookup_insert_ne, lookup_fmap by done.
    destruct (TIMERS st !! k'); [|done]. intros [= <-] Ho.
    by apply pause_not_open in Ho. }
  split; [apply lookup_insert_eq|]. split.
  - unfold resume. by rewrite decide_True.
  - unfold elapsed. cbn [TIMERS]. rewrite lookup_insert_eq, Ht. simpl.
    by rewrite !seconds_intervals, intervals_total_resume,
               intervals_total_stop.
Qed.

Lemma X11_pause_resume_round_trip_witness :
  let st := mkState {[ "m" := mkSimpleTimer "m" [0%Z] ]}
                    (Some "m") (Some "m") false in
  ∃ st1 st2 t2,
    on_key (sec 2) "p" st = Continue st1 ∧
    on_key (sec 7) "P" st1 = Continue st2 ∧
    TIMERS st2 !! "m" = Some t2 ∧
    state_switches t2 = [0; sec 2; sec 7]%Z ∧
    elapsed (sec 7) "m" st2 = elapsed (sec 2) "m" st.
Proof.
  intros st.
  destruct (X11_pause_resume_round_trip (sec 2) (sec 7) "p" "P" "m"
              (mkSimpleTimer "m" [0%Z]) st)
    as (st1 & st2 & t2 & E1 & _ & _ & _ & E2 & _ & _ & _ & Hm & Hmarks & Hread);
    [by left | by right | reflexivity | discriminate | reflexivity
    | reflexivity |].
  exists st1, st2, t2. split; [exact E1|]. split; [exact E2|].
  split; [exact Hm|]. split; [exact Hmarks | exact Hread].
Defined.

(** X12: while no timer has been selected since the start (or since the
    last [*]), [p], [P] and [*] do nothing at all, however often they
    are pressed. *)
Theorem X12_nothing_selected_noop ks : ∀ now st,
  last_active st = None →
  Forall (λ e, ∃ dt c, e = (dt, Char c) ∧ (c = "p" ∨ c = "P" ∨ c = "*")) ks →
  ∃ now', main_loop (length ks) ks now st = Waiting now' st.
Proof.
  induction ks as [|e ks IH]; intros now st Hla Hks; [by eexists|].
  apply Forall_cons in Hks as [(dt & c & -> & Hc) Hks].
  cbn [length main_loop getch].
  assert (on_key (now + dt) c st = Continue st) as ->; [|by apply IH].
  destruct Hc as [Hc | [Hc | ->]].
  - rewrite on_key_pause_key by auto. unfold on_key. simpl. by rewrite Hla.
  - rewrite on_key_pause_key by auto. unfold on_key. simpl. by rewrite Hla.
  - unfold on_key. simpl. rewrite Hla. by destruct st; simplify_eq/=.
Qed.

Lemma X12_nothing_selected_noop_witness :
  ∃ now', main_loop 4 [key_after 1 "p"; key_after 1 "*"; key_after 1 "P";
                       key_after 1 "p"] 0 initial
          = Waiting now' initial.
Proof.
  apply (X12_nothing_selected_noop
           [key_after 1 "p"; key_after 1 "*"; key_after 1 "P";
            key_after 1 "p"] 0 initial).
  - reflexivity.
  - repeat constructor; eexists _, _; (split; [reflexivity|]); auto.
Defined.

End Pausing.

(** ** What a keystroke never does *)

Section History.

Implicit Types (st : state) (now : Z) (t : SimpleTimer).

Lemma resume_extends now t :
  state_switches t `prefix_of` state_switches (resume now t) ∧
  seconds now (resume now t) = seconds now t.
Proof.
  split; [|by rewrite !seconds_intervals, intervals_total_resume].
  unfold resume. case_decide; [|done]. by apply prefix_app_r.
Qed.

Lemma stop_extends now t :
  state_switches t `prefix_of` state_switches (stop now t) ∧
  seconds now (stop now t) = seconds now t.
Proof.
  split; [|by rewrite !seconds_intervals, intervals_total_stop].
  unfold stop. case_decide; [|done]. by apply prefix_app_r.
Qed.

(** X13: no keystroke rewrites what a timer has recorded.  For a timer
    that is in the registry before and after a keystroke, the old marks
    are a prefix of the new ones and the reading at the instant of the
    keystroke is unchanged; a timer that appears is the one just
    selected, with that instant as its only mark. *)
Theorem X13_history_is_kept now char st st' k t' :
  on_key now char st = Continue st' →
  TIMERS st' !! k = Some t' →
  match TIMERS st !! k with
  | Some t => state_switches t `prefix_of` state_switches t' ∧
              seconds now t' = seconds now t
  | None => k = char ∧ t' = mkSimpleTimer char [now]
  end.
Proof.
  unfold on_key. case_decide; [done|]. case_decide.
  { intros [= <-]. cbn [TIMERS]. intros [-> _]%lookup_pop_Some. done. }
  case_decide.
  { destruct (last_active st) as [la|]; [|by intros [= <-] ->].
    case_decide; [by intros [= <-] ->|]. destruct (paused st).
    - destruct (TIMERS st !! la) as [tl|] eqn:Hla; [|done].
      intros [= <-]. cbn [TIMERS].
      destruct (decide (la = k)) as [<-|Hne].
      + rewrite lookup_insert_eq, Hla. intros [= <-]. apply resume_extends.
      + rewrite lookup_insert_ne by done. by intros ->.
    - intros [= <-]. cbn [TIMERS]. rewrite lookup_fmap.
      destruct (TIMERS st !! k); [|done]. intros [= <-]. apply stop_extends. }
  intros [= <-]. cbn [TIMERS]. destruct (decide (k = char)) as [->|Hne].
  - rewrite lookup_select_eq. intros [= <-].
    destruct (TIMERS st !! char); [apply resume_extends | done].
  - rewrite lookup_select_ne by done.
    destruct (TIMERS st !! k); [|done]. intros [= <-]. apply stop_extends.
Qed.

Lemma X13_history_is_kept_witness :
  let st := mkState {[ "a" := mkSimpleTimer "a" [0; 5; 8]%Z ]}
                    (Some "a") (Some "a") false in
  ∃ t', on_key 9 "b" st
          = Continue (mkState {[ "a" := t'; "b" := mkSimpleTimer "b" [9%Z] ]}
                              (Some "b") (Some "b") false) ∧
        [0; 5; 8]%Z `prefix_of` state_switches t' ∧
        seconds 9 t' = seconds 9 (mkSimpleTimer "a" [0; 5; 8]%Z).
Proof.
  intros st. exists (mkSimpleTimer "a" [0; 5; 8; 9]%Z).
  assert (on_key 9 "b" st
          = Continue (mkState {[ "a" := mkSimpleTimer "a" [0; 5; 8; 9]%Z;
                                 "b" := mkSimpleTimer "b" [9%Z] ]}
                              (Some "b") (Some "b") false)) as E
    by (vm_compute; reflexivity).
  split; [exact E|].
  apply (X13_history_is_kept 9 "b" st _ "a" _ E). by vm_compute.
Defined.

(** X14: every timer is stored under its own name, in every state in
    which the loop waits for a keystroke and in the state [main] ends
    in; so sorting by [timer.name] (line 130) sorts by label. *)
Theorem X14_stored_under_own_name fuel stdin (t0 : Z) now st k t :
  main_loop fuel stdin t0 initial = Waiting now st ∨
  main fuel stdin t0 = Exited now st →
  TIMERS st !! k = Some t → name t = k.
Proof.
  pose proof (main_loop_inv fuel stdin t0 initial loop_inv_initial) as H.
  intros [E|E].
  - rewrite E in H. by apply (inv_name st H).
  - unfold main in E.
    destruct (main_loop fuel stdin t0 initial) as [|now0 st0|]; try done.
    injection E as <- <-. destruct H as (st1 & Hinv & ->).
    unfold stop_all; cbn [TIMERS]. rewrite lookup_fmap.
    destruct (TIMERS st1 !! k) eqn:Hk; [|done]. intros [= <-].
    rewrite name_stop. by apply (inv_name st1 Hinv).
Qed.

Lemma X14_stored_under_own_name_witness :
  ∃ now st t,
    main 3 [key_after 0 "a"; key_after 1 "b"; key_after 1 "q"] 0
      = Exited now st ∧
    TIMERS st !! "b" = Some t ∧ name t = "b".
Proof.
  eexists _, _, _. split; [vm_compute; reflexivity|].
  split; [by vm_compute|].
  eapply (X14_stored_under_own_name 3
            [key_after 0 "a"; key_after 1 "b"; key_after 1 "q"] 0).
  - right. vm_compute. reflexivity.
  - by vm_compute.
Defined.

End History.

(** ** Sessions as a whole *)

Section Sessions.

Implicit Types (st : state) (now : Z) (stdin : list (Z * read_result)).

(** X15: only the delays between the keystrokes matter, not the date:
    started [d] later on the same input, [main] ends the same way with
    every mark [d] later, and every reading taken [d] later is the
    same. *)
Theorem X15_time_translation d fuel stdin (t0 : Z) :
  main fuel stdin (t0 + d) = shift_run d (main fuel stdin t0) ∧
  main_loop fuel stdin (t0 + d) initial
    = shift_run d (main_loop fuel stdin t0 initial) ∧
  ∀ now label st,
    elapsed (now + d) label (shift_state d st) = elapsed now label st.
Proof.
  split; [apply main_shift|]. split.
  - rewrite <- (shift_state_initial d) at 1. apply main_loop_shift.
  - intros. apply elapsed_shift.
Qed.

(** X16: once [main] has left the loop and stopped the timers, every
    reading is final: it no longer depends on the instant it is taken
    at. *)
Theorem X16_readings_final_after_exit fuel stdin t0 now st later label :
  main fuel stdin t0 = Exited now st →
  elapsed later label st = elapsed now label st.
Proof.
  unfold main.
  destruct (main_loop fuel stdin t0 initial) as [|now0 st0|]; try done.
  intros [= <- <-]. unfold elapsed, stop_all; cbn [TIMERS].
  rewrite lookup_fmap. destruct (TIMERS st0 !! label); [|done]. simpl.
  by rewrite !seconds_intervals, !intervals_total_stop.
Qed.

Lemma X16_readings_final_after_exit_witness :
  ∃ now st,
    main 2 [key_after 0 "a"; key_after 3 "q"] 0 = Exited now st ∧
    elapsed (sec 100) "a" st = elapsed now "a" st.
Proof.
  eexists _, _. split; [vm_compute; reflexivity|].
  apply (X16_readings_final_after_exit 2
           [key_after 0 "a"; key_after 3 "q"] 0).
  vm_compute. reflexivity.
Defined.

End Sessions.

(** ** Booked time and wall-clock time *)

Section Booked.

Implicit Types (st : state) (now lo hi : Z) (l : list Z)
  (m : gmap string SimpleTimer).

Lemma intervals_total_open_advance now now' l :
  length l `mod` 2 = 1 →
  intervals_total now' l = (intervals_total now l + (now' - now))%Z.
Proof.
  induction l as [|x|x y l IH] using list_ind_pairs;
    [done | intros; simpl; lia |].
  cbn [length]. rewrite mod2_SS. intros H.
  rewrite !intervals_total_cons2, IH by done. lia.
Qed.

Lemma marks_within_resume lo now t :
  marks_within lo now (state_switches t) →
  marks_within lo now (state_switches (resume now t)).
Proof. unfold resume. case_decide; [apply marks_within_snoc | done]. Qed.

Lemma marks_within_stop lo now t :
  marks_within lo now (state_switches t) →
  marks_within lo now (state_switches (stop now t)).
Proof. unfold stop. case_decide; [apply marks_within_snoc | done]. Qed.

Lemma booked_empty now : booked now ∅ = 0%Z.
Proof. apply map_fold_empty. Qed.

Lemma booked_insert now m i x :
  m !! i = None →
  booked now (<[i:=x]> m)
    = (booked now m + intervals_total now (state_switches x))%Z.
Proof.
  intros Hi. unfold booked. rewrite map_fold_insert_L; [done| |done].
  intros. lia.
Qed.

Lemma booked_delete now m i x :
  m !! i = Some x →
  booked now m
    = (booked now (delete i m) + intervals_total now (state_switches x))%Z.
Proof.
  intros Hi. rewrite <- (insert_delete_id m i x) at 1 by done.
  apply booked_insert, lookup_delete_eq.
Qed.

(** The booked time only depends on the totals of the timers, and a
    registry whose timers total less books less. *)
Lemma booked_mono now m1 : ∀ m2,
  (∀ k t, m1 !! k = Some t →
     (intervals_total now (state_switches t)
      ≤ from_option (λ t', intervals_total now (state_switches t')) 0
                    (m2 !! k))%Z) →
  (∀ k t, m2 !! k = Some t → (0 ≤ intervals_total now (state_switches t))%Z) →
  (booked now m1 ≤ booked now m2)%Z.
Proof.
  induction m1 as [|i x m1 Hi IH] using map_ind; intros m2 Hle Hpos.
  - rewrite booked_empty. clear Hle.
    induction m2 as [|j y m2 Hj IH2] using map_ind;
      [by rewrite booked_empty|].
    rewrite booked_insert by done.
    pose proof (Hpos j y (lookup_insert_eq _ _ _)).
    assert (0 ≤ booked now m2)%Z; [|lia].
    apply IH2. intros k t Hk. apply (Hpos k t).
    rewrite lookup_insert_ne; [done|]. intros ->. congruence.
  - rewrite booked_insert by done.
    pose proof (Hle i x (lookup_insert_eq _ _ _)) as Hx.
    assert (booked now m1 ≤ booked now (delete i m2))%Z as Hrest.
    { apply IH.
      - intros k t Hk. assert (k ≠ i) by (intros ->; congruence).
        rewrite lookup_delete_ne by done. apply Hle.
        by rewrite lookup_insert_ne.
      - intros k t [Hne Hk]%lookup_delete_Some. eauto. }
    destruct (m2 !! i) as [y|] eqn:Hy; simpl in Hx.
    + rewrite (booked_delete now m2 i y) by done. lia.
    + rewrite delete_id in Hrest by done.
      pose proof (Hle i x (lookup_insert_eq _ _ _)). lia.
Qed.

Lemma intervals_total_not_open now now' t :
  ¬ is_open t →
  intervals_total now' (state_switches t)
    = intervals_total now (state_switches t).
Proof.
  intros Hc. apply intervals_total_closed.
  destruct (parity_lt_2 t); [done | by destruct Hc].
Qed.

Lemma booked_closed now now' m :
  (∀ k t, m !! k = Some t → ¬ is_open t) → booked now' m = booked now m.
Proof.
  induction m as [|i x m Hi IH] using map_ind; intros Hc.
  - by rewrite !booked_empty.
  - rewrite !booked_insert by done.
    rewrite (intervals_total_not_open now now' x)
      by (apply (Hc i); apply lookup_insert_eq).
    rewrite IH; [done|]. intros k t Hk. apply (Hc k).
    rewrite lookup_insert_ne; [done|]. intros ->. congruence.
Qed.

(** While the clock advances, only a running timer books time; with at
    most one of them the booked time grows no faster than the clock. *)
Lemma booked_advance now now' m :
  (∀ k1 k2 t1 t2, m !! k1 = Some t1 → m !! k2 = Some t2 →
                  is_open t1 → is_open t2 → k1 = k2) →
  (now ≤ now')%Z →
  (booked now' m ≤ booked now m + (now' - now))%Z.
Proof.
  intros Hone Hle. induction m as [|i x m Hi IH] using map_ind.
  - rewrite !booked_empty. lia.
  - rewrite !booked_insert by done.
    assert (∀ k t, m !! k = Some t → <[i:=x]> m !! k = Some t) as Hin.
    { intros k t Hk. rewrite lookup_insert_ne; [done|]. intros ->. congruence. }
    destruct (decide (is_open x)) as [Ho|Hc].
    + rewrite (intervals_total_open_advance now now') by done.
      rewrite (booked_closed now now' m); [lia|].
      intros k t Hk Hopen.
      assert (k = i) as ->; [|congruence].
      apply (Hone k i t x); [by apply Hin | apply lookup_insert_eq | done..].
    + rewrite (intervals_total_not_open now now' x) by done.
      assert (booked now' m ≤ booked now m + (now' - now))%Z; [|lia].
      apply IH. intros k1 k2 t1 t2 H1 H2. apply Hone; auto.
Qed.

End Booked.

Section WallClock.

Implicit Types (st : state) (now : Z) (stdin : list (Z * read_result)).

(** Where a timer found after a keystroke comes from. *)
Lemma on_key_timer_cases now char st st' k t' :
  on_key now char st = Continue st' →
  TIMERS st' !! k = Some t' →
  match TIMERS st !! k with
  | Some t => t' = t ∨ t' = resume now t ∨ t' = stop now t
  | None => t' = resume now (new_timer k)
  end.
Proof.
  unfold on_key. case_decide; [done|]. case_decide.
  { intros [= <-]. cbn [TIMERS]. intros [-> _]%lookup_pop_Some. auto. }
  case_decide.
  { destruct (last_active st) as [la|]; [|intros [= <-] ->; auto].
    case_decide; [intros [= <-] ->; auto|]. destruct (paused st).
    - destruct (TIMERS st !! la) as [tl|] eqn:Hla; [|done].
      intros [= <-]. cbn [TIMERS].
      destruct (decide (la = k)) as [<-|Hne].
      + rewrite lookup_insert_eq, Hla. intros [= <-]. auto.
      + rewrite lookup_insert_ne by done. intros ->. auto.
    - intros [= <-]. cbn [TIMERS]. rewrite lookup_fmap.
      destruct (TIMERS st !! k); [|done]. intros [= <-]. auto. }
  intros [= <-]. cbn [TIMERS]. destruct (decide (k = char)) as [->|Hne].
  - rewrite lookup_select_eq. intros [= <-].
    destruct (TIMERS st !! char); simpl; auto.
  - rewrite lookup_select_ne by done.
    destruct (TIMERS st !! k); [|done]. intros [= <-]. auto.
Qed.

Lemma booked_inv_advance t0 now now' st :
  loop_inv st → (now ≤ now')%Z → booked_inv t0 now st → booked_inv t0 now' st.
Proof.
  intros Hinv Hle [Hmarks Hbooked]. split.
  - intros k t Hk. eapply marks_within_weaken; eauto.
  - pose proof (booked_advance now now' (TIMERS st)) as H.
    assert (booked now' (TIMERS st) ≤ booked now (TIMERS st) + (now' - now))%Z;
      [|lia].
    apply H; [|done]. apply loop_inv_exclusive in Hinv as [Hone _]. exact Hone.
Qed.

Lemma booked_inv_on_key t0 now char st st' :
  (t0 ≤ now)%Z → on_key now char st = Continue st' →
  booked_inv t0 now st → booked_inv t0 now st'.
Proof.
  intros Ht0 Hstep [Hmarks Hbooked].
  assert (∀ k t', TIMERS st' !! k = Some t' →
            marks_within t0 now (state_switches t') ∧
            intervals_total now (state_switches t')
            = from_option (λ t, intervals_total now (state_switches t)) 0%Z
                          (TIMERS st !! k)) as Hcases.
  { intros k t' Hk. pose proof (on_key_timer_cases _ _ _ _ _ _ Hstep Hk) as H.
    destruct (TIMERS st !! k) as [t|] eqn:E.
    - specialize (Hmarks _ _ E). simpl.
      destruct H as [-> | [-> | ->]];
        auto using marks_within_resume, marks_within_stop,
                   intervals_total_resume, intervals_total_stop.
    - subst t'. simpl. split; [lia|lia]. }
  split; [intros k t' Hk; by destruct (Hcases k t' Hk)|].
  assert (booked now (TIMERS st') ≤ booked now (TIMERS st))%Z; [|lia].
  apply booked_mono.
  - intros k t' Hk. destruct (Hcases k t' Hk) as [_ ->]. lia.
  - intros k t Hk. apply (intervals_total_bounds _ t0), (Hmarks k t Hk).
Qed.

Lemma booked_inv_stop_all t0 now st :
  booked_inv t0 now st → booked_inv t0 now (stop_all now st).
Proof.
  intros [Hmarks Hbooked]. unfold stop_all. split; cbn [TIMERS].
  - intros k t. rewrite lookup_fmap.
    destruct (TIMERS st !! k) eqn:E; [|done]. intros [= <-].
    apply marks_within_stop. eauto.
  - assert (booked now (stop now <$> TIMERS st) ≤ booked now (TIMERS st))%Z;
      [|lia].
    apply booked_mono.
    + intros k t. rewrite lookup_fmap.
      destruct (TIMERS st !! k) eqn:E; [|done]. intros [= <-]. simpl.
      rewrite intervals_total_stop. lia.
    + intros k t Hk. apply (intervals_total_bounds _ t0), (Hmarks k t Hk).
Qed.

Lemma main_loop_booked_inv t0 fuel : ∀ stdin now st,
  forward stdin → (t0 ≤ now)%Z → loop_inv st → booked_inv t0 now st →
  match main_loop fuel stdin now st with
  | Waiting now' st' | Exited now' st' | Crashed _ now' st' =>
      (t0 ≤ now')%Z ∧ booked_inv t0 now' st'
  end.
Proof.
  induction fuel as [|fuel IH]; intros stdin now st Hfwd Hnow Hinv Hb; [done|].
  cbn [main_loop].
  assert (∃ r now' stdin', getch stdin now = (r, now', stdin') ∧
            (now ≤ now')%Z ∧ forward stdin') as (r & now' & stdin' & -> & Hle & Hfwd').
  { destruct stdin as [|[dt r] rest]; simpl.
    - eexists _, _, _. split; [done|]. split; [lia | constructor].
    - apply Forall_cons in Hfwd as [Hdt Hrest]. simpl in Hdt.
      eexists _, _, _. split; [done|]. split; [lia | done]. }
  pose proof (booked_inv_advance t0 now now' st Hinv Hle Hb) as Hb'.
  destruct r as [char|]; [|split; [lia | done]].
  destruct (on_key now' char st) as [st'|st'|e] eqn:Hstep.
  - apply IH; [done | lia | by eapply on_key_loop_inv |].
    eapply booked_inv_on_key; [| exact Hstep | done]. lia.
  - apply on_key_Break in Hstep as [_ ->]. split; [lia | done].
  - split; [lia | done].
Qed.

End WallClock.

Section WallClockBounds.

Implicit Types (st : state) (now : Z) (stdin : list (Z * read_result)).

Lemma booked_inv_reached fuel stdin (t0 : Z) now st :
  forward stdin →
  main_loop fuel stdin t0 initial = Waiting now st ∨
  main fuel stdin t0 = Exited now st →
  (t0 ≤ now)%Z ∧ booked_inv t0 now st.
Proof.
  intros Hfwd Hrun.
  assert (booked_inv t0 t0 initial) as Hinit.
  { split; [intros k t; unfold initial; simpl; by rewrite lookup_empty|].
    simpl. rewrite booked_empty. lia. }
  pose proof (main_loop_booked_inv t0 fuel stdin t0 initial Hfwd
                (Z.le_refl _) loop_inv_initial Hinit) as H.
  destruct Hrun as [E|E].
  - by rewrite E in H.
  - unfold main in E.
    destruct (main_loop fuel stdin t0 initial) as [|now0 st0|]; try done.
    injection E as <- <-. destruct H as [Hle Hb].
    split; [done | by apply booked_inv_stop_all].
Qed.

(** X17: while the clock does not run backwards, no timer ever reads a
    negative time.  When moreover the session starts and every keystroke
    arrives at a whole second (the case in which the floats of the code
    are exact), no timer reads more than the seconds that have passed
    since the session started. *)
Theorem X17_reading_within_wall_clock fuel stdin (t0 : Z) now st label s :
  forward stdin →
  main_loop fuel stdin t0 initial = Waiting now st ∨
  main fuel stdin t0 = Exited now st →
  elapsed now label st = Some s →
  (0 ≤ s)%Z ∧
  (whole_second t0 → Forall (λ e, whole_second e.1) stdin →
   (now - t0 < float_exact_span)%Z →
   (s * usec_per_sec ≤ now - t0)%Z).
Proof.
  intros Hfwd Hrun. destruct (booked_inv_reached _ _ _ _ _ Hfwd Hrun)
    as [Hle [Hmarks _]].
  unfold elapsed. destruct (TIMERS st !! label) as [t|] eqn:Ht; [|done].
  simpl. rewrite seconds_intervals. intros [= <-].
  pose proof (intervals_total_bounds _ _ _ (Hmarks _ _ Ht)) as [H0 H1].
  split; [by apply Z.quot_pos|]. intros _ _ _.
  assert (usec_per_sec ≠ 0)%Z as Hu by done.
  pose proof (Z.mul_quot_le (intervals_total now (state_switches t))
                usec_per_sec H0 Hu) as Hq.
  lia.
Qed.

Lemma X17_reading_within_wall_clock_witness :
  ∃ now st s,
    main_loop 3 [key_after 0 "a"; key_after 4 "b"; key_after 2 "p"] 0 initial
      = Waiting now st ∧
    elapsed now "a" st = Some s ∧
    (0 ≤ s)%Z ∧ (s * usec_per_sec ≤ now - 0)%Z.
Proof.
  eexists _, _, _. split; [vm_compute; reflexivity|].
  split; [vm_compute; reflexivity|].
  destruct (X17_reading_within_wall_clock 3
              [key_after 0 "a"; key_after 4 "b"; key_after 2 "p"] 0
              (sec 6)
              (mkState {[ "a" := mkSimpleTimer "a" [0; sec 4]%Z;
                          "b" := mkSimpleTimer "b" [sec 4; sec 6] ]}
                       None (Some "b") true)
              "a" 4) as [Hpos Hle].
  - repeat (apply Forall_cons; split; [by vm_compute|]). by apply Forall_nil.
  - left. vm_compute. reflexivity.
  - vm_compute. reflexivity.
  - split; [exact Hpos|]. apply Hle.
    + by exists 0%Z.
    + apply Forall_cons. split; [by exists 0%Z|].
      apply Forall_cons. split; [by exists 4%Z|].
      apply Forall_cons. split; [by exists 2%Z | by apply Forall_nil].
    + by vm_compute.
Defined.

(** Under the convention of this development that all the clock readings
    taken while one keystroke is handled give the same instant, the
    timers together never book more than the time that has passed.  (In
    the code [resume] and [pause] read the clock one after the other, so
    that two timers can overlap by the time it takes to handle a key.) *)
Lemma booked_within_wall_clock fuel stdin (t0 : Z) now st :
  forward stdin →
  main_loop fuel stdin t0 initial = Waiting now st ∨
  main fuel stdin t0 = Exited now st →
  (0 ≤ booked now (TIMERS st) ≤ now - t0)%Z.
Proof.
  intros Hfwd Hrun. destruct (booked_inv_reached _ _ _ _ _ Hfwd Hrun)
    as [Hle [Hmarks Hb]].
  split; [|done]. rewrite <- (booked_empty now). apply booked_mono.
  - intros k t. by rewrite lookup_empty.
  - intros k t Hk. apply (intervals_total_bounds _ t0), (Hmarks k t Hk).
Qed.

End WallClockBounds.


(** ** The status line *)

Section StatusLine.

Implicit Types (st : state) (now : Z).

(** The rendering of a [timedelta] on some values, as Python prints
    them. *)
Example timedelta_str_samples :
  timedelta_str <$> timedelta_of_seconds 3725 = Some "1:02:05" ∧
  timedelta_str <$> timedelta_of_seconds 90061 = Some "1 day, 1:01:01" ∧
  timedelta_str <$> timedelta_of_seconds 172800 = Some "2 days, 0:00:00" ∧
  timedelta_str <$> timedelta_of_seconds (-1) = Some "-1 day, 23:59:59" ∧
  timedelta_of_seconds (86400 * (max_days + 1)) = None.
Proof. by vm_compute. Qed.

Lemma print_single_Skipped now st :
  print_single now st = Skipped ↔
  ∀ k, current_key st = Some k → TIMERS st !! k = None.
Proof.
  unfold print_single. destruct (current_key st) as [k|]; simpl.
  - destruct (TIMERS st !! k) as [t|] eqn:Ht.
    + split; [by destruct (reading now t)|].
      intros H. specialize (H k eq_refl). congruence.
    + split; [|done]. by intros _ k' [= <-].
  - split; [|done]. by intros _ k' [=].
Qed.

(** X19: [print_single] copes with a current key that is unset or names
    no timer (as after [*]): it returns without printing exactly then.
    Whatever it prints is the entry of the current timer, always in the
    highlighted form. *)
Theorem X19_print_single_missing_key now st :
  (print_single now st = Skipped ↔
     ∀ k, current_key st = Some k → TIMERS st !! k = None) ∧
  (∀ text, print_single now st = Printed text →
     ∃ k t v, current_key st = Some k ∧ TIMERS st !! k = Some t ∧
              reading now t = Some v ∧
              text = CR +:+ " " +:+ ESC +:+ "[1;32m" +:+ plain_item k v
                     +:+ ESC +:+ "[0;0m").
Proof.
  split; [apply print_single_Skipped|].
  unfold print_single. destruct (current_key st) as [k|] eqn:Hk; [|done].
  simpl. destruct (TIMERS st !! k) as [t|] eqn:Ht; [|done].
  destruct (reading now t) as [v|] eqn:Hv; [|done].
  intros text [= <-]. exists k, t, v. repeat (split; [done|]).
  unfold colorise. by rewrite decide_True.
Qed.

Lemma on_key_current_key_inv now char st st' :
  current_key_inv st → on_key now char st = Continue st' →
  current_key_inv st'.
Proof.
  intros Hinv. unfold on_key. case_decide; [done|]. case_decide.
  { intros [= <-] k. cbn. intros Hk. right. split; [done|].
    destruct (Hinv k Hk) as [-> | [-> Hnone]]; simpl; [|done].
    apply lookup_delete_eq. }
  case_decide.
  { destruct (last_active st) as [la|] eqn:Hla; [|by intros [= <-]].
    case_decide; [by intros [= <-]|]. destruct (paused st).
    - destruct (TIMERS st !! la); [|done]. intros [= <-] k. cbn. auto.
    - by intros [= <-] k. }
  intros [= <-] k. cbn. auto.
Qed.

Lemma main_loop_current_key_inv fuel : ∀ stdin now st now' st',
  current_key_inv st →
  main_loop fuel stdin now st = Waiting now' st' → current_key_inv st'.
Proof.
  induction fuel as [|fuel IH]; intros stdin now st now' st' Hinv.
  - by intros [= <- <-].
  - cbn [main_loop]. destruct (getch stdin now) as [[r now1] stdin'].
    destruct r as [char|]; [|done].
    destruct (on_key now1 char st) as [st1|st1|e] eqn:Hstep; [|done..].
    apply IH. by eapply on_key_current_key_inv.
Qed.

(** X20: in the single-timer display the status line is refreshed
    exactly while a timer is selected and highlighted: whenever the loop
    waits for a key, [print_single] returns without printing if and only
    if the session has been paused by [p], or the current timer has been
    removed by [*], or nothing has been selected yet. *)
Theorem X20_print_single_silent fuel stdin (t0 : Z) now st later :
  main_loop fuel stdin t0 initial = Waiting now st →
  (print_single later st = Skipped ↔
     current_key st = None ∨ last_active st = None).
Proof.
  intros E.
  assert (current_key_inv st) as Hcur.
  { eapply main_loop_current_key_inv; [|exact E]. by intros k. }
  pose proof (main_loop_inv fuel stdin t0 initial loop_inv_initial) as Hinv.
  rewrite E in Hinv.
  rewrite print_single_Skipped. split.
  - intros H. destruct (current_key st) as [k|] eqn:Hk; [|by left]. right.
    destruct (Hcur k Hk) as [Hla | [Hla _]]; [|done].
    destruct (inv_last_present st Hinv k Hla) as [t Ht].
    specialize (H k eq_refl). congruence.
  - intros [Hk | Hla] k Hk'; [congruence|].
    destruct (Hcur k Hk') as [? | [_ ?]]; [congruence | done].
Qed.

End StatusLine.

Section MultiLine.

Implicit Types (st : state) (now : Z).

Global Instance row_le_total : Total row_le.
Proof.
  intros [k1 v1] [k2 v2]. unfold row_le, String.ltb; simpl.
  destruct (String.compare k1 k2) eqn:E.
  - apply String.compare_eq_iff in E as ->.
    assert (timedelta_le v1 v2 ∨ timedelta_le v2 v1) as [H|H]
      by (unfold timedelta_le; lia); auto.
  - by left; left.
  - right; left. rewrite String.compare_antisym, E. done.
Qed.

Lemma row_le_ltb a b : row_le a b → a.1 ≠ b.1 → String.ltb a.1 b.1 = true.
Proof. by intros [H | [H _]]. Qed.

Lemma Sorted_rows_keys (rows : list (string * timedelta)) :
  Sorted row_le rows → NoDup rows.*1 →
  Sorted (λ a b, String.ltb a b = true) rows.*1.
Proof.
  induction 1 as [|r rows Hs IH Hhd]; simpl; [constructor|].
  intros [Hr Hnd]%NoDup_cons. constructor; [by apply IH|].
  destruct Hhd as [|r' rows Hle]; simpl; constructor.
  apply row_le_ltb; [done|]. intros E. apply Hr. rewrite E. set_solver.
Qed.

Lemma Forall2_elem_of_r {A B} (P : A → B → Prop) l k y :
  Forall2 P l k → y ∈ k → ∃ x, x ∈ l ∧ P x y.
Proof.
  induction 1 as [|x y' l k Hxy _ IH]; [by intros ?%elem_of_nil|].
  intros [->|Hin]%elem_of_cons; [exists x; split; [left|done]|].
  destruct (IH Hin) as (x' & ? & ?). exists x'. split; [by right|done].
Qed.

Lemma Forall2_elem_of_l {A B} (P : A → B → Prop) l k x :
  Forall2 P l k → x ∈ l → ∃ y, y ∈ k ∧ P x y.
Proof.
  induction 1 as [|x' y l k Hxy _ IH]; [by intros ?%elem_of_nil|].
  intros [->|Hin]%elem_of_cons; [exists y; split; [left|done]|].
  destruct (IH Hin) as (y' & ? & ?). exists y'. split; [by right|done].
Qed.

(** The rows that [print_multiple] sorts: one per timer of the registry. *)
Lemma rows_of_registry now st data :
  mapM (λ timer, v ← reading now timer; Some (name timer, v))
       (map_to_list (TIMERS st)).*2 = Some data →
  (data.*1 = name <$> (map_to_list (TIMERS st)).*2) ∧
  (∀ n v, (n, v) ∈ data ↔
          ∃ k t, TIMERS st !! k = Some t ∧ name t = n ∧ reading now t = Some v).
Proof.
  intros H%mapM_Some. split.
  - revert H. generalize (map_to_list (TIMERS st)).*2. intros l H.
    induction H as [|t r l k Hr _ IH]; [done|].
    rewrite !fmap_cons, IH. f_equal.
    destruct (reading now t); simpl in Hr; [|done]. by injection Hr as <-.
  - intros n v. split.
    + intros Hin. destruct (Forall2_elem_of_r _ _ _ _ H Hin) as (t & Ht & Hr).
      apply list_elem_of_fmap in Ht as ([k t'] & -> & Hkt).
      apply elem_of_map_to_list in Hkt. exists k, t'. split; [done|].
      simpl in Hr. destruct (reading now t'); simpl in Hr; [|done].
      by injection Hr as <- <-.
    + intros (k & t & Hk & <- & Hv).
      assert (t ∈ (map_to_list (TIMERS st)).*2) as Ht.
      { apply list_elem_of_fmap. exists (k, t). split; [done|].
        by apply elem_of_map_to_list. }
      destruct (Forall2_elem_of_l _ _ _ _ H Ht) as (y & Hy & Hr).
      rewrite Hv in Hr. simpl in Hr. by injection Hr as <-.
Qed.

(** X21: [print_multiple] returns without printing exactly when the
    registry is empty (line 131). *)
Theorem X21_print_multiple_empty now st :
  print_multiple now st = Skipped ↔ TIMERS st = ∅.
Proof.
  unfold print_multiple. split.
  - destruct (mapM _ _) as [data|] eqn:Hdata; [|done].
    destruct (merge_sort row_le data) as [|r rows] eqn:Hsort; [|done].
    intros _. pose proof (merge_sort_Permutation row_le data) as Hp.
    rewrite Hsort in Hp. apply Permutation_nil_l in Hp. subst data.
    apply length_mapM in Hdata. rewrite length_fmap in Hdata.
    apply map_to_list_empty_iff. by apply nil_length_inv.
  - intros ->. by rewrite map_to_list_empty.
Qed.

End MultiLine.

Section SortedLine.

Implicit Types (st : state) (now : Z).

Lemma names_are_keys (m : gmap string SimpleTimer) :
  (∀ k t, m !! k = Some t → name t = k) →
  name <$> (map_to_list m).*2 = (map_to_list m).*1.
Proof.
  intros Hname.
  assert (Forall (λ kt, name kt.2 = kt.1) (map_to_list m)) as H.
  { apply Forall_forall. intros [k t] Hkt%elem_of_map_to_list. by apply Hname. }
  induction H as [|[k t] l Hkt _ IH]; [done|].
  rewrite !fmap_cons, IH. simpl in *. by rewrite Hkt.
Qed.

(** The rows of a registry whose timers are stored under their names,
    once sorted: the labels in strictly ascending order, one row per
    timer. *)
Lemma sorted_rows_of_registry now st data :
  (∀ k t, TIMERS st !! k = Some t → name t = k) →
  mapM (λ timer, v ← reading now timer; Some (name timer, v))
       (map_to_list (TIMERS st)).*2 = Some data →
  Sorted (λ a b, String.ltb a b = true) (merge_sort row_le data).*1 ∧
  (∀ k v, (k, v) ∈ merge_sort row_le data ↔
          ∃ t, TIMERS st !! k = Some t ∧ reading now t = Some v).
Proof.
  intros Hname Hdata.
  destruct (rows_of_registry now st data Hdata) as [Hkeys Hrows].
  rewrite names_are_keys in Hkeys by done.
  pose proof (merge_sort_Permutation row_le data) as Hp. split.
  - apply Sorted_rows_keys; [apply (Sorted_merge_sort row_le)|].
    rewrite Hp, Hkeys. apply NoDup_fst_map_to_list.
  - intros k v. rewrite Hp, Hrows. split.
    + intros (k' & t & Hk & Hn & Hv). rewrite (Hname _ _ Hk) in Hn.
      subst k'. eauto.
    + intros (t & Hk & Hv). exists k, t. eauto.
Qed.

(** X22: whenever the loop waits for a key, what [print_multiple] prints
    is a carriage return, a space and one entry per timer of the
    registry, joined by [" | "], in strictly ascending order of the
    labels; each entry is rendered by [colorise] from the label and the
    reading of its timer. *)
Theorem X22_status_line_sorted fuel stdin (t0 : Z) now st later text :
  main_loop fuel stdin t0 initial = Waiting now st →
  print_multiple later st = Printed text →
  ∃ rows : list (string * timedelta),
    Sorted (λ a b, String.ltb a b = true) rows.*1 ∧
    (∀ k v, (k, v) ∈ rows ↔
            ∃ t, TIMERS st !! k = Some t ∧ reading later t = Some v) ∧
    text = CR +:+ " " +:+
           String.concat " | "
             ((λ row, colorise (current_key st) row.1 row.2) <$> rows).
Proof.
  intros E. pose proof (main_loop_inv fuel stdin t0 initial loop_inv_initial)
    as Hinv. rewrite E in Hinv.
  unfold print_multiple.
  destruct (mapM _ _) as [data|] eqn:Hdata; [|done].
  destruct (sorted_rows_of_registry later st data (inv_name st Hinv) Hdata)
    as [Hsorted Hrows].
  intros Htext. exists (merge_sort row_le data).
  split; [done|]. split; [done|].
  destruct (merge_sort row_le data); [done|]. by injection Htext as <-.
Qed.

Lemma X22_status_line_sorted_witness :
  let st := mkState {[ "a" := mkSimpleTimer "a" [sec 1];
                       "b" := mkSimpleTimer "b" [0%Z; sec 1] ]}
                    (Some "a") (Some "a") false in
  ∃ rows : list (string * timedelta),
    Sorted (λ a b, String.ltb a b = true) rows.*1 ∧
    (∀ k v, (k, v) ∈ rows ↔
            ∃ t, TIMERS st !! k = Some t ∧ reading (sec 5) t = Some v) ∧
    CR +:+ " " +:+ ESC +:+ "[1;32ma:  0:00:04" +:+ ESC +:+ "[0;0m | b:  0:00:01"
    = CR +:+ " " +:+
      String.concat " | "
        ((λ row, colorise (current_key st) row.1 row.2) <$> rows).
Proof.
  intros st.
  apply (X22_status_line_sorted 2 [key_after 0 "b"; key_after 1 "a"] 0
           (sec 1) st (sec 5)).
  - vm_compute. reflexivity.
  - vm_compute. reflexivity.
Defined.

End SortedLine.

Section SilentLine.

Lemma X20_print_single_silent_witness :
  ∃ now st,
    main_loop 2 [key_after 0 "a"; key_after 3 "p"] 0 initial = Waiting now st ∧
    (print_single (sec 9) st = Skipped ↔
       current_key st = None ∨ last_active st = None).
Proof.
  eexists _, _. split; [vm_compute; reflexivity|].
  eapply (X20_print_single_silent 2 [key_after 0 "a"; key_after 3 "p"] 0).
  vm_compute. reflexivity.
Defined.

End SilentLine.

(** ** Highlighting *)

Section Highlight.

Implicit Types (st : state) (now : Z).

Lemma string_length_app (s1 s2 : string) :
  String.length (s1 +:+ s2) = String.length s1 + String.length s2.
Proof. induction s1 as [|c s1 IH]; simpl; [done | by rewrite IH]. Qed.

(** The highlighted form of an entry (line 105). *)
Lemma colorise_current key value :
  colorise (Some key) key value
    = ESC +:+ "[1;32m" +:+ plain_item key value +:+ ESC +:+ "[0;0m".
Proof. unfold colorise. by rewrite decide_True. Qed.

Lemma colorise_highlighted current key value :
  colorise current key value
    = ESC +:+ "[1;32m" +:+ plain_item key value +:+ ESC +:+ "[0;0m" ↔
  current = Some key.
Proof.
  split; [|intros ->; apply colorise_current].
  unfold colorise. case_decide; [done|]. intros Heq.
  apply (f_equal String.length) in Heq.
  rewrite !string_length_app in Heq. simpl in Heq. lia.
Qed.

Lemma on_key_current_runs now char st st' :
  current_key_inv st → current_runs st →
  on_key now char st = Continue st' → current_runs st'.
Proof.
  intros Hcur Hruns. unfold on_key. case_decide; [done|]. case_decide.
  { intros [= <-] k t. cbn. intros Hk [Ht Hne]%lookup_pop_Some.
    destruct (Hcur k Hk) as [Hla | [_ Hnone]]; congruence. }
  case_decide.
  { destruct (last_active st) as [la|] eqn:Hla; [|by intros [= <-]].
    case_decide; [by intros [= <-]|]. destruct (paused st).
    - destruct (TIMERS st !! la); [|done]. intros [= <-] k t. cbn.
      intros [= <-]. rewrite lookup_insert_eq. intros [= <-].
      apply resume_is_open.
    - by intros [= <-] k t. }
  intros [= <-] k t. cbn. intros [= <-]. rewrite lookup_select_eq.
  intros [= <-]. apply resume_is_open.
Qed.

Lemma main_loop_current_runs fuel : ∀ stdin now st now' st',
  current_key_inv st → current_runs st →
  main_loop fuel stdin now st = Waiting now' st' → current_runs st'.
Proof.
  induction fuel as [|fuel IH]; intros stdin now st now' st' Hcur Hruns.
  - by intros [= <- <-].
  - cbn [main_loop]. destruct (getch stdin now) as [[r now1] stdin'].
    destruct r as [char|]; [|done].
    destruct (on_key now1 char st) as [st1|st1|e] eqn:Hstep; [|done..].
    apply IH; [by eapply on_key_current_key_inv | by eapply on_key_current_runs].
Qed.

(** X23: what is highlighted is what runs.  Whenever the loop waits for
    a key, the entry that [colorise] renders for a timer of the registry
    is in the highlighted form if and only if that timer is running. *)
Theorem X23_highlight_iff_running fuel stdin (t0 : Z) now st k t v :
  main_loop fuel stdin t0 initial = Waiting now st →
  TIMERS st !! k = Some t →
  (colorise (current_key st) k v
     = ESC +:+ "[1;32m" +:+ plain_item k v +:+ ESC +:+ "[0;0m" ↔
   is_open t).
Proof.
  intros E Hk. rewrite colorise_highlighted.
  pose proof (main_loop_inv fuel stdin t0 initial loop_inv_initial) as Hinv.
  rewrite E in Hinv. split.
  - intros Hcur. eapply main_loop_current_runs; [| |exact E|exact Hcur|exact Hk];
      by intros ?.
  - intros Ho. by apply (inv_open_current st Hinv k t).
Qed.

Lemma X23_highlight_iff_running_witness :
  ∃ now st t,
    main_loop 2 [key_after 0 "a"; key_after 3 "b"] 0 initial = Waiting now st ∧
    TIMERS st !! "b" = Some t ∧
    (colorise (current_key st) "b" (mkTimedelta 0 3)
       = ESC +:+ "[1;32m" +:+ plain_item "b" (mkTimedelta 0 3) +:+ ESC
         +:+ "[0;0m" ↔
     is_open t).
Proof.
  eexists _, _, _. split; [vm_compute; reflexivity|].
  split; [by vm_compute|].
  eapply (X23_highlight_iff_running 2 [key_after 0 "a"; key_after 3 "b"] 0).
  - vm_compute. reflexivity.
  - by vm_compute.
Defined.

End Highlight.

(** ** The final report *)

Section Report.

Implicit Types (st : state) (now : Z).

Global Instance item_le_total : Total item_le.
Proof. intros a b. apply String.leb_total. Qed.

Lemma leb_ltb a b : String.leb a b = true → a ≠ b → String.ltb a b = true.
Proof.
  unfold String.leb, String.ltb.
  destruct (String.compare a b) eqn:E; [|done..].
  by apply String.compare_eq_iff in E.
Qed.

Lemma Sorted_items_keys (items : list (string * SimpleTimer)) :
  Sorted item_le items → NoDup items.*1 →
  Sorted (λ a b, String.ltb a b = true) items.*1.
Proof.
  induction 1 as [|r rows Hs IH Hhd]; simpl; [constructor|].
  intros [Hr Hnd]%NoDup_cons. constructor; [by apply IH|].
  destruct Hhd as [|r' rows Hle]; simpl; constructor.
  apply leb_ltb; [done|]. intros E. apply Hr. rewrite E. set_solver.
Qed.

(** The lines of a report that ran to its end. *)
Lemma report_rows_lines now current items : ∀ lines,
  report_rows now current items = (lines, true) →
  Forall2 (λ item line, ∃ v, reading now item.2 = Some v ∧
             line = CR +:+ " " +:+ colorise current item.1 v +:+ LF)
          items lines.
Proof.
  induction items as [|[k t] items IH]; intros lines; simpl.
  - intros [= <-]. constructor.
  - destruct (reading now t) as [v|] eqn:Hv; [|done].
    destruct (report_rows now current items) as [ls ok].
    intros [= <- ->]. constructor; [eauto | by apply IH].
Qed.

Lemma Forall2_impl_elem {A B} (P Q : A → B → Prop) l k :
  Forall2 P l k → (∀ x y, x ∈ l → P x y → Q x y) → Forall2 Q l k.
Proof.
  induction 1 as [|x y l k Hxy _ IH]; intros HPQ; constructor.
  - apply HPQ; [left | done].
  - apply IH. intros x' y' Hin. apply HPQ. by right.
Qed.

Lemma reading_stopped now later t :
  ¬ is_open t → reading later t = reading now t.
Proof.
  intros Hc. unfold reading.
  by rewrite !seconds_intervals, (intervals_total_not_open now later).
Qed.

(** X24: the report of lines 209-213, printed after [q] in the
    single-timer display: under the heading, one line per timer of the
    registry, in strictly ascending order of the labels.  No line is
    highlighted, because the [q] branch has cleared
    [GLOBALS['current_key']], and the times are those of the instant of
    the [q], whenever the report is printed. *)
Theorem X24_final_report fuel stdin (t0 : Z) now st later lines :
  main fuel stdin t0 = Exited now st →
  report true later st = (lines, true) →
  ∃ items rest,
    lines = (LF +:+ LF +:+ "--- Report ------------" +:+ LF) :: rest ∧
    Sorted (λ a b, String.ltb a b = true) items.*1 ∧
    (∀ k t, (k, t) ∈ items ↔ TIMERS st !! k = Some t) ∧
    Forall2 (λ item line, ∃ v, reading now item.2 = Some v ∧
               line = CR +:+ " " +:+ plain_item item.1 v +:+ LF)
            items rest.
Proof.
  intros Hmain. unfold report.
  destruct (report_rows later (current_key st)
              (merge_sort item_le (map_to_list (TIMERS st))))
    as [rest ok] eqn:Hrows.
  intros [= <- ->].
  exists (merge_sort item_le (map_to_list (TIMERS st))), rest.
  pose proof (merge_sort_Permutation item_le (map_to_list (TIMERS st))) as Hp.
  split; [done|]. split; [|split].
  - apply Sorted_items_keys; [apply (Sorted_merge_sort item_le)|].
    rewrite Hp. apply NoDup_fst_map_to_list.
  - intros k t. rewrite Hp. apply elem_of_map_to_list.
  - assert (current_key st = None) as Hcur.
    { unfold main in Hmain.
      pose proof (main_loop_inv fuel stdin t0 initial loop_inv_initial) as H.
      destruct (main_loop fuel stdin t0 initial); try done.
      injection Hmain as <- <-. by destruct H as (st1 & _ & ->). }
    pose proof (main_Exited_none_open _ _ _ _ _ Hmain) as Hclosed.
    apply report_rows_lines in Hrows. rewrite Hcur in Hrows.
    eapply Forall2_impl_elem; [exact Hrows|].
    intros [k t] line Hin (v & Hv & ->). simpl in *.
    exists v. split; [|by unfold colorise; rewrite decide_False].
    rewrite <- Hv. apply reading_stopped. apply (Hclosed k).
    rewrite Hp in Hin. by apply elem_of_map_to_list in Hin.
Qed.

End Report.

Section ReportExample.

Lemma X24_final_report_witness :
  ∃ now st lines,
    main 3 [key_after 0 "b"; key_after 2 "a"; key_after 5 "q"] 0
      = Exited now st ∧
    report true (sec 60) st = (lines, true) ∧
    ∃ items rest,
      lines = (LF +:+ LF +:+ "--- Report ------------" +:+ LF) :: rest ∧
      Sorted (λ a b, String.ltb a b = true) items.*1 ∧
      (∀ k t, (k, t) ∈ items ↔ TIMERS st !! k = Some t) ∧
      Forall2 (λ item line, ∃ v, reading now item.2 = Some v ∧
                 line = CR +:+ " " +:+ plain_item item.1 v +:+ LF)
              items rest.
Proof.
  eexists _, _, _. split; [vm_compute; reflexivity|].
  split; [vm_compute; reflexivity|].
  eapply (X24_final_report 3
            [key_after 0 "b"; key_after 2 "a"; key_after 5 "q"] 0 _ _ (sec 60)).
  - vm_compute. reflexivity.
  - vm_compute. reflexivity.
Defined.

End ReportExample.

(** ** The display never fails *)

Section NoFailure.

Implicit Types (st : state) (now : Z).

Lemma timedelta_of_seconds_Some s :
  (0 ≤ s < 86400 * (max_days + 1))%Z → is_Some (timedelta_of_seconds s).
Proof.
  intros [H0 H1]. unfold timedelta_of_seconds. rewrite decide_True; [done|].
  split.
  - pose proof (Z.div_pos s 86400 H0). unfold max_days. lia.
  - assert (s `div` 86400 < max_days + 1)%Z; [|lia].
    apply Z.div_lt_upper_bound; lia.
Qed.

Lemma reading_in_session fuel stdin (t0 : Z) now st later :
  forward stdin →
  main_loop fuel stdin t0 initial = Waiting now st ∨
  main fuel stdin t0 = Exited now st →
  (now ≤ later)%Z → (later - t0 < session_limit)%Z →
  ∀ k t, TIMERS st !! k = Some t → is_Some (reading later t).
Proof.
  intros Hfwd Hrun Hlater Hlimit k t Hk.
  destruct (booked_inv_reached _ _ _ _ _ Hfwd Hrun) as [Hle [Hmarks _]].
  pose proof (marks_within_weaken _ _ _ _ Hlater (Hmarks k t Hk)) as Hm.
  apply intervals_total_bounds in Hm as [H0 H1].
  unfold reading. rewrite seconds_intervals. simpl.
  apply timedelta_of_seconds_Some. split.
  - by apply Z.quot_pos.
  - eapply Z.le_lt_trans; [apply Z.quot_le_mono; [done | exact H1]|].
    apply Z.quot_lt_upper_bound; [lia | done |].
    unfold session_limit, usec_per_sec in *. lia.
Qed.

Lemma report_rows_ok now current items :
  Forall (λ item, is_Some (reading now item.2)) items →
  (report_rows now current items).2 = true.
Proof.
  induction 1 as [|[k t] items [v Hv] _ IH]; [done|]. simpl in *.
  rewrite Hv. by destruct (report_rows now current items).
Qed.

(** X25: in a session whose clock does not run backwards and that is
    shorter than a thousand million days, no reading overflows a
    [timedelta]: neither [print_multiple] nor [print_single] nor the
    report of [main] raises, at any instant after the last keystroke. *)
Theorem X25_display_never_fails fuel stdin (t0 : Z) now st later single :
  forward stdin →
  main_loop fuel stdin t0 initial = Waiting now st ∨
  main fuel stdin t0 = Exited now st →
  (now ≤ later)%Z → (later - t0 < session_limit)%Z →
  print_multiple later st ≠ Failed ∧
  print_single later st ≠ Failed ∧
  (report single later st).2 = true.
Proof.
  intros Hfwd Hrun Hlater Hlimit.
  pose proof (reading_in_session _ _ _ _ _ _ Hfwd Hrun Hlater Hlimit) as Hread.
  split; [|split].
  - unfold print_multiple.
    assert (is_Some (mapM (λ timer, v ← reading later timer;
                            Some (name timer, v))
                          (map_to_list (TIMERS st)).*2)) as [data ->].
    { apply mapM_is_Some, Forall_forall. intros t Ht.
      apply list_elem_of_fmap in Ht as ([k t'] & -> & Hkt).
      apply elem_of_map_to_list in Hkt. simpl.
      destruct (Hread k t' Hkt) as [v ->]. by eexists. }
    by destruct (_ <$> merge_sort row_le data).
  - unfold print_single.
    destruct (current_key st ≫= _) as [t|] eqn:Ht; [|done].
    destruct (current_key st) as [k|]; [|done]. simpl in Ht.
    by destruct (Hread k t Ht) as [v ->].
  - unfold report. destruct single; [|done].
    pose proof (report_rows_ok later (current_key st)
                  (merge_sort item_le (map_to_list (TIMERS st)))) as Hok.
    destruct (report_rows _ _ _) as [lines ok]. simpl in *. apply Hok.
    apply Forall_forall. intros [k t] Hin.
    rewrite merge_sort_Permutation in Hin.
    apply elem_of_map_to_list in Hin. simpl. eauto.
Qed.

Lemma X25_display_never_fails_witness :
  ∃ now st,
    main_loop 2 [key_after 0 "a"; key_after 3 "b"] 0 initial = Waiting now st ∧
    print_multiple (sec 10) st ≠ Failed ∧
    print_single (sec 10) st ≠ Failed ∧
    (report true (sec 10) st).2 = true.
Proof.
  eexists _, _. split; [vm_compute; reflexivity|].
  eapply (X25_display_never_fails 2 [key_after 0 "a"; key_after 3 "b"] 0).
  - repeat constructor; by vm_compute.
  - left. vm_compute. reflexivity.
  - by vm_compute.
  - by vm_compute.
Defined.

End NoFailure.

(** ** The width of an entry *)

Section Width.

Lemma length_spaces n : String.length (spaces n) = n.
Proof. induction n as [|n IH]; simpl; [done | by rewrite IH]. Qed.

Lemma length_rjust w s :
  String.length (rjust w s) = Nat.max w (String.length s).
Proof. unfold rjust. rewrite string_length_app, length_spaces. lia. Qed.

Lemma fmt_02d_length z : (0 ≤ z < 60)%Z → String.length (fmt_02d z) = 2.
Proof.
  intros Hz. assert (∃ n, z = Z.of_nat n ∧ n < 60) as (n & -> & Hn)
    by (exists (Z.to_nat z); lia).
  clear Hz. do 60 (destruct n as [|n]; [by vm_compute|]). lia.
Qed.

Lemma fmt_d_length z : (0 ≤ z < 24)%Z → 1 ≤ String.length (fmt_d z) ≤ 2.
Proof.
  intros Hz. assert (∃ n, z = Z.of_nat n ∧ n < 24) as (n & -> & Hn)
    by (exists (Z.to_nat z); lia).
  clear Hz. do 24 (destruct n as [|n]; [vm_compute; lia|]). lia.
Qed.

(** X26: the entries keep their width during the first day of a timer:
    a reading of less than 24 hours is rendered as [H:MM:SS] or
    [HH:MM:SS], without days, and fills the eight columns of the ["%8s"]
    field exactly, so that a plain entry is ten characters longer than
    its label. *)
Theorem X26_entry_width n key :
  (0 ≤ n < 86400)%Z →
  ∃ v, timedelta_of_seconds n = Some v ∧
       td_days v = 0%Z ∧
       7 ≤ String.length (timedelta_str v) ≤ 8 ∧
       String.length (plain_item key v) = String.length key + 10.
Proof.
  intros Hn. exists (mkTimedelta 0 n).
  assert (timedelta_of_seconds n = Some (mkTimedelta 0 n)) as Htd.
  { unfold timedelta_of_seconds.
    rewrite Z.div_small, Z.mod_small by done. by rewrite decide_True. }
  assert (7 ≤ String.length (timedelta_str (mkTimedelta 0 n)) ≤ 8) as Hlen.
  { unfold timedelta_str. cbn [td_days td_seconds].
    rewrite decide_True by done. rewrite !string_length_app.
    rewrite !fmt_02d_length by (apply Z.mod_pos_bound; lia).
    assert (0 ≤ (n `div` 60) `div` 60 < 24)%Z as Hhh.
    { split; [apply Z.div_pos; [apply Z.div_pos|]; lia|].
      apply Z.div_lt_upper_bound; [lia|].
      apply Z.div_lt_upper_bound; lia. }
    pose proof (fmt_d_length _ Hhh). simpl. lia. }
  split; [done|]. split; [done|]. split; [done|].
  unfold plain_item. rewrite !string_length_app, length_rjust. simpl. lia.
Qed.

Lemma X26_entry_width_witness :
  ∃ v, timedelta_of_seconds 3725 = Some v ∧
       td_days v = 0%Z ∧
       7 ≤ String.length (timedelta_str v) ≤ 8 ∧
       String.length (plain_item "a" v) = String.length "a" + 10.
Proof. apply (X26_entry_width 3725 "a"). lia. Defined.

End Width.

(** ** Pressing the key of the running timer *)

Section Repeat.

Implicit Types (st : state) (now : Z).

(** X27: pressing again the key of the timer that is running changes
    nothing in the registry: no second start mark is added and no other
    timer is touched, whenever the key is pressed. *)
Theorem X27_repeated_selection fuel stdin (t0 : Z) now st later k t :
  main_loop fuel stdin t0 initial = Waiting now st →
  selects k → TIMERS st !! k = Some t → is_open t →
  ∃ st', on_key later k st = Continue st' ∧
         TIMERS st' = TIMERS st ∧
         current_key st' = Some k ∧ last_active st' = Some k.
Proof.
  intros E Hsel Hk Ho.
  pose proof (main_loop_inv fuel stdin t0 initial loop_inv_initial) as Hinv.
  rewrite E in Hinv.
  eexists. split; [by apply on_key_selects|]. cbn. split; [|done].
  apply map_eq. intros k'. destruct (decide (k' = k)) as [->|Hne].
  - rewrite lookup_select_eq, Hk. simpl. by rewrite resume_of_open.
  - rewrite lookup_select_ne by done.
    destruct (TIMERS st !! k') as [t'|] eqn:Hk'; [|done]. simpl. f_equal.
    apply stop_of_closed. intros Ho'.
    pose proof (inv_open_last st Hinv _ _ Hk Ho).
    pose proof (inv_open_last st Hinv _ _ Hk' Ho'). congruence.
Qed.

Lemma X27_repeated_selection_witness :
  ∃ now st st',
    main_loop 2 [key_after 0 "a"; key_after 3 "b"] 0 initial = Waiting now st ∧
    on_key (sec 7) "b" st = Continue st' ∧ TIMERS st' = TIMERS st.
Proof.
  eexists _, _.
  destruct (X27_repeated_selection 2 [key_after 0 "a"; key_after 3 "b"] 0
              (sec 3)
              (mkState {[ "a" := mkSimpleTimer "a" [0%Z; sec 3];
                          "b" := mkSimpleTimer "b" [sec 3] ]}
                       (Some "b") (Some "b") false)
              (sec 7) "b" (mkSimpleTimer "b" [sec 3]))
    as (st' & Hstep & Hsame & _).
  - vm_compute. reflexivity.
  - by repeat split.
  - by vm_compute.
  - reflexivity.
  - exists st'. split; [vm_compute; reflexivity|]. by split.
Defined.

End Repeat.
